(** * Gravity compensation controller (rewd_controllers)

    A shallow embedding of
    [rewd_controllers/src/gravity_compensation_controller.cpp]:
    the [init] routine that builds the controller from the parameter
    server, the DART model and the hardware interfaces, and the per-tick
    [update] routine that copies the sensed joint state into the model,
    runs the inverse-dynamics solve and writes the torque commands.

    Conventions of the embedding.
    - A C++ [double] is a primitive IEEE binary64 float.  The controller
      only copies doubles around; it never computes on them.
    - The DART skeleton is the vector of its degrees of freedom, in index
      order.  A [DegreeOfFreedom*] is an index into that vector, so that
      the [Group] of controlled DOFs aliases the DOFs of the skeleton, as
      the pointers do in the source.
    - A hardware handle is a named reference into the memory of the
      interface it was obtained from.
    - Dereferencing a null or dangling pointer, or indexing a vector out
      of range, is undefined behaviour: the model returns [None] there.
    - The two external algorithms, URDF parsing and the inverse-dynamics
      solve, are parameters of the development. *)

From Stdlib Require Import PrimFloat.
From stdpp Require Import gmap strings list fin_maps.

Abbreviation double := PrimFloat.float.

(** ** The DART model *)

(** [dart::dynamics::DegreeOfFreedom]: the fields the controller touches. *)
Record DegreeOfFreedom := mkDof {
  getName : string;
  dof_position : double;
  dof_velocity : double;
  dof_acceleration : double;
  dof_force : double
}.

Definition setPosition (q : double) (d : DegreeOfFreedom) : DegreeOfFreedom :=
  mkDof (getName d) q (dof_velocity d) (dof_acceleration d) (dof_force d).

Definition setVelocity (dq : double) (d : DegreeOfFreedom) : DegreeOfFreedom :=
  mkDof (getName d) (dof_position d) dq (dof_acceleration d) (dof_force d).

Definition setAcceleration (ddq : double) (d : DegreeOfFreedom) : DegreeOfFreedom :=
  mkDof (getName d) (dof_position d) (dof_velocity d) ddq (dof_force d).

Definition setForce (f : double) (d : DegreeOfFreedom) : DegreeOfFreedom :=
  mkDof (getName d) (dof_position d) (dof_velocity d) (dof_acceleration d) f.

(** [dart::dynamics::Skeleton], and pointers into it. *)
Abbreviation Skeleton := (list DegreeOfFreedom).
Abbreviation DofPtr := nat.

(** [Skeleton::getDof(name)]: the DOF of that name, or null.  The result
    pairs the pointer with the DOF it points to. *)
Definition getDof (sk : Skeleton) (name : string) : option (DofPtr * DegreeOfFreedom) :=
  list_find (λ d, getName d = name) sk.

(** [dart::dynamics::Group]: an ordered collection of DOF pointers. *)
Abbreviation Group := (list nat).

(** [Group::addDof]: DART registers a DOF at the end of the group, unless
    the group already holds it, in which case the call returns false and
    the group is left as it is (a debug build of DART asserts instead). *)
Definition addDof (grp : Group) (dof : DofPtr) : Group :=
  if decide (dof ∈ grp) then grp else grp ++ [dof].

(** [Group::getNumDofs]. *)
Definition getNumDofs (grp : Group) : nat := length grp.

(** ** The hardware abstraction *)

(** The memory behind a joint of the [JointStateInterface]. *)
Record JointState := mkJointState {
  js_position : double;
  js_velocity : double;
  js_effort : double
}.

(** The memory behind a joint of the [EffortJointInterface]: the state and
    the command slot. *)
Record JointData := mkJointData {
  jd_position : double;
  jd_velocity : double;
  jd_effort : double;
  jd_command : double
}.

(** [hardware_interface::RobotHW] with its two interfaces registered. *)
Record RobotHW := mkRobotHW {
  effort_joint_interface : gmap string JointData;
  joint_state_interface : gmap string JointState
}.

(** [hardware_interface::JointHandle], obtained from the effort interface. *)
Record JointHandle := mkJointHandle { jh_name : string }.

(** [hardware_interface::JointStateHandle], obtained from the state interface. *)
Record JointStateHandle := mkJointStateHandle { jsh_name : string }.

(** [EffortJointInterface::getHandle]: throws when the name is unknown. *)
Definition ei_getHandle (ei : gmap string JointData) (name : string) : option JointHandle :=
  match ei !! name with
  | Some _ => Some (mkJointHandle name)
  | None => None
  end.

(** [JointStateInterface::getHandle]: throws when the name is unknown. *)
Definition jsi_getHandle (jsi : gmap string JointState) (name : string) : option JointStateHandle :=
  match jsi !! name with
  | Some _ => Some (mkJointStateHandle name)
  | None => None
  end.

(** [handle.getPosition()] and [handle.getVelocity()] on a command handle. *)
Definition getPosition (hw : RobotHW) (h : JointHandle) : option double :=
  jd_position <$> effort_joint_interface hw !! jh_name h.

Definition getVelocity (hw : RobotHW) (h : JointHandle) : option double :=
  jd_velocity <$> effort_joint_interface hw !! jh_name h.

(** [joint_handle.setCommand(v)]: writes the command slot of the joint. *)
Definition setCommand (hw : RobotHW) (h : JointHandle) (v : double) : option RobotHW :=
  jd ← effort_joint_interface hw !! jh_name h;
  Some (mkRobotHW
          (<[jh_name h := mkJointData (jd_position jd) (jd_velocity jd) (jd_effort jd) v]>
             (effort_joint_interface hw))
          (joint_state_interface hw)).

(** ** The parameter server *)

(** [XmlRpc::XmlRpcValue]: strings, arrays, and every other type. *)
#[warnings="-register-all"]
Inductive XmlRpcValue :=
  | TypeString (s : string)
  | TypeArray (l : list XmlRpcValue)
  | TypeOther.

(** The parameters as the node handle [n] sees them, keyed by the name
    passed to [n]; the names are taken to be valid graph names. *)
Abbreviation NodeHandle := (gmap string XmlRpcValue).

(** [n.getParam(key, std::string&)]: succeeds on a string parameter. *)
Definition getParam_string (n : NodeHandle) (key : string) : option string :=
  match n !! key with
  | Some (TypeString s) => Some s
  | _ => None
  end.

(** [n.param<std::string>(key, out, default)]. *)
Definition param_string (n : NodeHandle) (key : string) (default_val : string) : string :=
  match getParam_string n key with
  | Some s => s
  | None => default_val
  end.

Definition xml_string (v : XmlRpcValue) : option string :=
  match v with
  | TypeString s => Some s
  | _ => None
  end.

(** [n.getParam(key, std::vector<std::string>&)]: succeeds on an array
    whose elements are all strings. *)
Definition getParam_strings (n : NodeHandle) (key : string) : option (list string) :=
  match n !! key with
  | Some (TypeArray l) => mapM xml_string l
  | _ => None
  end.

(** ** The controller *)

(** The data members of [GravityCompensationController]. *)
Record GravityCompensationController := mkController {
  skeleton_ : option Skeleton;
  controlled_skeleton_ : option Group;
  controlled_joint_map_ : gmap string nat;
  controlled_joint_handles_ : list JointHandle;
  joint_state_handles_ : list JointStateHandle
}.

(** The constructor leaves every member default-initialised. *)
Definition GravityCompensationController_new : GravityCompensationController :=
  mkController None None ∅ [] [].

Definition set_skeleton (sk : option Skeleton) (c : GravityCompensationController) :=
  mkController sk (controlled_skeleton_ c) (controlled_joint_map_ c)
    (controlled_joint_handles_ c) (joint_state_handles_ c).

Definition set_controlled (grp : Group) (m : gmap string nat)
    (c : GravityCompensationController) :=
  mkController (skeleton_ c) (Some grp) m
    (controlled_joint_handles_ c) (joint_state_handles_ c).

Definition set_controlled_joint_handles (hs : list JointHandle)
    (c : GravityCompensationController) :=
  mkController (skeleton_ c) (controlled_skeleton_ c) (controlled_joint_map_ c)
    hs (joint_state_handles_ c).

Definition set_joint_state_handles (hs : list JointStateHandle)
    (c : GravityCompensationController) :=
  mkController (skeleton_ c) (controlled_skeleton_ c) (controlled_joint_map_ c)
    (controlled_joint_handles_ c) hs.

(** [std::unordered_map::emplace]: inserts unless the key is present. *)
Definition emplace (k : string) (v : nat) (m : gmap string nat) : gmap string nat :=
  match m !! k with
  | Some _ => m
  | None => <[k := v]> m
  end.

(** *** Initialisation *)

(** Lines 61-71: resolve each configured name against the model, add the
    DOF to the controlled group and record its index.  The flag is false
    when the loop returned at an unresolved name; the group and the map
    built so far stay in the members.  [getNumDofs() - 1] is a [size_t]
    subtraction; it is taken after [addDof], when the group holds at least
    one DOF, so it never wraps and is written on [nat]. *)
Fixpoint add_controlled_dofs (sk : Skeleton) (dof_names : list string)
    (grp : Group) (m : gmap string nat) : bool * (Group * gmap string nat) :=
  match dof_names with
  | [] => (true, (grp, m))
  | dof_name :: rest =>
      match getDof sk dof_name with
      | None => (false, (grp, m))
      | Some (dof, d) =>
          let grp' := addDof grp dof in
          add_controlled_dofs sk rest grp'
            (emplace (getName d) (getNumDofs grp' - 1) m)
      end
  end.

(** Lines 77-92: acquire the command handle of each controlled DOF, in
    group order.  The flag is false when [getHandle] threw. *)
Fixpoint get_controlled_handles (ei : gmap string JointData) (sk : Skeleton)
    (dofs : list DofPtr) (handles : list JointHandle)
    : option (bool * list JointHandle) :=
  match dofs with
  | [] => Some (true, handles)
  | dof :: rest =>
      d ← sk !! dof;
      match ei_getHandle ei (getName d) with
      | None => Some (false, handles)
      | Some handle => get_controlled_handles ei sk rest (handles ++ [handle])
      end
  end.

(** Lines 97-112: try to acquire a state handle for every DOF of the
    model, skipping the DOFs for which [getHandle] threw. *)
Fixpoint get_state_handles (jsi : gmap string JointState) (dofs : list DegreeOfFreedom)
    (handles : list JointStateHandle) : list JointStateHandle :=
  match dofs with
  | [] => handles
  | d :: rest =>
      match jsi_getHandle jsi (getName d) with
      | None => get_state_handles jsi rest handles
      | Some handle => get_state_handles jsi rest (handles ++ [handle])
      end
  end.

(** ** A three-joint arm *)

(** The arm of the scenarios: joints [shoulder], [elbow] and [wrist], of
    which [shoulder] and [elbow] are controlled. *)
Module Scenario.

Definition resting (name : string) : DegreeOfFreedom :=
  mkDof name 0%float 0%float 0%float 0%float.

Definition arm : Skeleton := [resting "shoulder"; resting "elbow"; resting "wrist"].

(** A parser that knows one document. *)
Definition parse (doc : string) : option Skeleton :=
  if decide (doc = "<robot name='arm'/>") then Some arm else None.

(** A stand-in for the dynamics engine: the force on a DOF is its position
    times eight, minus its acceleration. *)
Definition dynamics (sk : Skeleton) (i : nat) : double :=
  match sk !! i with
  | Some d => PrimFloat.sub (PrimFloat.mul 8%float (dof_position d)) (dof_acceleration d)
  | None => 0%float
  end.

(** The hardware at start-up: command handles for the two controlled
    joints, a state handle for the wrist. *)
Definition at_rest : JointData := mkJointData 0%float 0%float 0%float 0%float.

Definition robot : RobotHW :=
  mkRobotHW (<["shoulder" := at_rest]> (<["elbow" := at_rest]> ∅))
            (<["wrist" := mkJointState 0%float 0%float 0%float]> ∅).

(** The same hardware without any state handle. *)
Definition robot_without_state : RobotHW :=
  mkRobotHW (effort_joint_interface robot) ∅.

(** Hardware that cannot command the elbow. *)
Definition robot_without_elbow : RobotHW :=
  mkRobotHW (<["shoulder" := at_rest]> ∅) (joint_state_interface robot).

(** The hardware at some tick: the shoulder is sensed at 0.25 rad moving
    at 0.125 rad/s, the elbow at -0.5 rad moving at 2 rad/s. *)
Definition sensed : RobotHW :=
  mkRobotHW (<["shoulder" := mkJointData 0.25%float 0.125%float 0%float 0%float]>
               (<["elbow" := mkJointData (-0.5)%float 2%float 0%float 0%float]> ∅))
            (joint_state_interface robot).

Definition joints (names : list string) : XmlRpcValue := TypeArray (TypeString <$> names).

(** Configurations: a valid one, one that names the shoulder twice, one
    that names a joint the model lacks, one with no description, and one
    whose description sits under a key of its own. *)
Definition valid : NodeHandle :=
  <["/robot_description" := TypeString "<robot name='arm'/>"]>
    (<["joints" := joints ["shoulder"; "elbow"]]> ∅).

Definition shoulder_twice : NodeHandle :=
  <["/robot_description" := TypeString "<robot name='arm'/>"]>
    (<["joints" := joints ["shoulder"; "shoulder"]]> ∅).

Definition with_gripper : NodeHandle :=
  <["/robot_description" := TypeString "<robot name='arm'/>"]>
    (<["joints" := joints ["shoulder"; "gripper"; "elbow"]]> ∅).

Definition no_description : NodeHandle :=
  <["joints" := joints ["shoulder"; "elbow"]]> ∅.

Definition own_key : NodeHandle :=
  <["robot_description_parameter" := TypeString "/arm/urdf"]>
    (<["/arm/urdf" := TypeString "<robot name='arm'/>"]>
       (<["joints" := joints ["shoulder"; "elbow"]]> ∅)).

(** The controller that [init] builds from the valid configuration. *)
Definition ready : GravityCompensationController :=
  mkController (Some arm) (Some [0; 1])
    (<["shoulder" := 0]> (<["elbow" := 1]> ∅))
    [mkJointHandle "shoulder"; mkJointHandle "elbow"]
    [mkJointStateHandle "wrist"].

(** The same controller after the elbow of the model was renamed and moved
    behind its back: the lookup of the elbow handle now fails. *)
Definition forearm : DegreeOfFreedom :=
  mkDof "forearm" 0.5%float 0.75%float 0.25%float 1%float.

Definition elbow_renamed : GravityCompensationController :=
  mkController (Some [resting "shoulder"; forearm; resting "wrist"])
    (Some [0; 1])
    (<["shoulder" := 0]> (<["elbow" := 1]> ∅))
    [mkJointHandle "shoulder"; mkJointHandle "elbow"]
    [mkJointStateHandle "wrist"].

(** More configurations: a description the parser rejects, a joint list
    with an entry that is not a string, and a joint list that repeats the
    shoulder after the elbow. *)
Definition unparsable : NodeHandle :=
  <["/robot_description" := TypeString "<robot"]>
    (<["joints" := joints ["shoulder"; "elbow"]]> ∅).

Definition ill_typed_joints : NodeHandle :=
  <["/robot_description" := TypeString "<robot name='arm'/>"]>
    (<["joints" := TypeArray [TypeString "shoulder"; TypeOther]]> ∅).

Definition shoulder_again : NodeHandle :=
  <["/robot_description" := TypeString "<robot name='arm'/>"]>
    (<["joints" := joints ["shoulder"; "elbow"; "shoulder"]]> ∅).

End Scenario.

Section Controller.

Set Default Proof Using "Type".

(** [dart::utils::DartLoader::parseSkeletonString]: the model of a URDF
    document, or null. *)
Variable parseSkeletonString : string → option Skeleton.

(** The generalized force that DART's inverse dynamics assigns to the DOF
    at a given index, as a function of the state of the whole model. *)
Variable inverseDynamics : Skeleton → nat → double.

(** The key under which the URDF is looked up (lines 23-25). *)
Definition robot_description_parameter (n : NodeHandle) : string :=
  param_string n "robot_description_parameter" "/robot_description".

(** [GravityCompensationController::init].  The result is the returned
    flag and the members as the call leaves them. *)
Definition init (robot : RobotHW) (n : NodeHandle) (c : GravityCompensationController)
    : option (bool * GravityCompensationController) :=
  match getParam_string n (robot_description_parameter n) with
  | None => Some (false, c)
  | Some robot_description =>
      let c := set_skeleton (parseSkeletonString robot_description) c in
      match skeleton_ c with
      | None => Some (false, c)
      | Some sk =>
          match getParam_strings n "joints" with
          | None => Some (false, c)
          | Some dof_names =>
              let '(ok, (grp, m)) :=
                add_controlled_dofs sk dof_names [] (controlled_joint_map_ c) in
              let c := set_controlled grp m c in
              if negb ok then Some (false, c) else
              '(ok, handles) ← get_controlled_handles (effort_joint_interface robot)
                                 sk grp (controlled_joint_handles_ c);
              let c := set_controlled_joint_handles handles c in
              if negb ok then Some (false, c) else
              let c := set_joint_state_handles
                         (get_state_handles (joint_state_interface robot) sk
                            (joint_state_handles_ c)) c in
              Some (true, c)
          end
      end
  end.

(** *** The control cycle *)

(** Lines 121-130: copy the sensed state of each command handle into the
    DOF of the same name, and zero its acceleration. *)
Fixpoint read_joint_states (hw : RobotHW) (handles : list JointHandle)
    (sk : Skeleton) : option Skeleton :=
  match handles with
  | [] => Some sk
  | handle :: rest =>
      match getDof sk (jh_name handle) with
      | None => read_joint_states hw rest sk
      | Some (dof, _) =>
          q ← getPosition hw handle;
          dq ← getVelocity hw handle;
          read_joint_states hw rest
            (alter (λ d, setAcceleration 0%float (setVelocity dq (setPosition q d))) dof sk)
      end
  end.

(** Line 132: [skeleton_->computeInverseDynamics()] stores the solved
    generalized force in every DOF and changes nothing else. *)
Definition computeInverseDynamics (sk : Skeleton) : Skeleton :=
  imap (λ i d, setForce (inverseDynamics sk i) d) sk.

(** Lines 134-143, for the indices [idxs] in turn: read the force of the
    i-th controlled DOF and command it on the i-th handle.  The log lists
    the [setCommand] calls in the order they were made. *)
Fixpoint write_commands (sk : Skeleton) (grp : Group) (handles : list JointHandle)
    (idxs : list nat) (hw : RobotHW) (log : list (JointHandle * double))
    : option (RobotHW * list (JointHandle * double)) :=
  match idxs with
  | [] => Some (hw, log)
  | i :: rest =>
      dof ← grp !! i;
      d ← sk !! dof;
      let effort_inversedynamics := dof_force d in
      joint_handle ← handles !! i;
      hw' ← setCommand hw joint_handle effort_inversedynamics;
      write_commands sk grp handles rest hw' (log ++ [(joint_handle, effort_inversedynamics)])
  end.

(** The model as the first loop of [update] leaves it, that is, as the
    inverse-dynamics solve receives it. *)
Definition model_before_solve (c : GravityCompensationController) (hw : RobotHW)
    : option Skeleton :=
  sk ← skeleton_ c;
  read_joint_states hw (controlled_joint_handles_ c) sk.

(** [GravityCompensationController::update].  The result is the controller,
    the hardware memory and the commands issued, in order. *)
Definition update (c : GravityCompensationController) (hw : RobotHW)
    : option (GravityCompensationController * RobotHW * list (JointHandle * double)) :=
  sk ← model_before_solve c hw;
  let sk := computeInverseDynamics sk in
  grp ← controlled_skeleton_ c;
  '(hw', log) ← write_commands sk grp (controlled_joint_handles_ c)
                  (seq 0 (getNumDofs grp)) hw [];
  Some (set_skeleton (Some sk) c, hw', log).

(** *** The host *)

(** The controller manager calls [update] once per control tick.  [hws]
    lists the hardware memory as each tick finds it; the result collects
    the commands of each tick. *)
Fixpoint run_ticks (c : GravityCompensationController) (hws : list RobotHW)
    : option (GravityCompensationController * list (list (JointHandle * double))) :=
  match hws with
  | [] => Some (c, [])
  | hw :: rest =>
      '(c', _, log) ← update c hw;
      '(c'', logs) ← run_ticks c' rest;
      Some (c'', log :: logs)
  end.

(** The controller manager constructs the controller, calls [init] once,
    and starts the control loop only when [init] returned true. *)
Definition controller_manager (robot : RobotHW) (n : NodeHandle) (hws : list RobotHW)
    : option (bool * list (list (JointHandle * double))) :=
  match init robot n GravityCompensationController_new with
  | Some (true, c) => r ← run_ticks c hws; Some (true, r.2)
  | Some (false, _) => Some (false, [])
  | None => None
  end.

(** ** Auxiliary notions used in the statements *)

(** The pointer that [getDof] returns for a name. *)
Definition dof_index (sk : Skeleton) (name : string) : option DofPtr :=
  fst <$> getDof sk name.

(** The DOF [d] after the three setter calls of lines 127-129, fed from
    the hardware memory of the joint named like [d]. *)
Definition sync_dof (hw : RobotHW) (d : DegreeOfFreedom) : DegreeOfFreedom :=
  match effort_joint_interface hw !! getName d with
  | Some jd =>
      setAcceleration 0%float (setVelocity (jd_velocity jd) (setPosition (jd_position jd) d))
  | None => d
  end.

(** The DOF at index [p] after a pass over handles named [names]: it is
    synchronised exactly when one of the names resolves to [p]. *)
Definition synced (hw : RobotHW) (names : list string) (sk : Skeleton)
    (p : nat) (d : DegreeOfFreedom) : DegreeOfFreedom :=
  if decide (getName d ∈ names ∧ dof_index sk (getName d) = Some p)
  then sync_dof hw d else d.

(** The position, velocity and acceleration of a DOF: what the solve reads. *)
Definition kinematic_state (d : DegreeOfFreedom) : double * double * double :=
  (dof_position d, dof_velocity d, dof_acceleration d).

(** Every handle of the list refers to a joint of the effort interface. *)
Definition handles_registered (hw : RobotHW) (handles : list JointHandle) : Prop :=
  Forall (λ h, is_Some (effort_joint_interface hw !! jh_name h)) handles.

(** The members are consistent: the model and the group exist, the group
    points into the model, and there is one live handle per group entry. *)
Definition consistent (c : GravityCompensationController) (hw : RobotHW) : Prop :=
  ∃ sk grp,
    skeleton_ c = Some sk ∧ controlled_skeleton_ c = Some grp ∧
    Forall (λ p, p < length sk) grp ∧
    length (controlled_joint_handles_ c) = length grp ∧
    handles_registered hw (controlled_joint_handles_ c).

(** The command that the second loop of [update] issues at index [i]. *)
Definition command_of (sk : Skeleton) (grp : Group) (handles : list JointHandle)
    (i : nat) : option (JointHandle * double) :=
  dof ← grp !! i;
  d ← sk !! dof;
  joint_handle ← handles !! i;
  Some (joint_handle, dof_force d).

(** The hardware memory after the logged commands were written in turn. *)
Definition write_log (hw : RobotHW) (log : list (JointHandle * double)) : RobotHW :=
  foldl (λ hw hc, default hw (setCommand hw hc.1 hc.2)) hw log.

(** The command handle that line 82 acquires for the DOF behind a pointer. *)
Definition handle_of (sk : Skeleton) (dof : DofPtr) : option JointHandle :=
  (λ d, mkJointHandle (getName d)) <$> sk !! dof.

(** The effort interface has a joint named like the DOF behind a pointer. *)
Definition commandable (ei : gmap string JointData) (sk : Skeleton) (dof : DofPtr) : Prop :=
  ∃ d, sk !! dof = Some d ∧ is_Some (ei !! getName d).

#[local] Instance commandable_dec ei sk p : Decision (commandable ei sk p).
Proof.
  unfold commandable. destruct (sk !! p) as [d|].
  - destruct (ei !! getName d) as [jd|] eqn:E.
    + left. exists d. by rewrite E.
    + right. intros (d' & [= <-] & [? ?]). congruence.
  - right. intros (d' & ? & _). done.
Defined.

(** The state handle that line 102 acquires for a DOF. *)
Definition state_handle_of (d : DegreeOfFreedom) : JointStateHandle :=
  mkJointStateHandle (getName d).

(** What initialisation validates: every pointer of the group is live,
    its handle carries the name of its DOF, and that name resolves back to
    the pointer. *)
Definition validated (c : GravityCompensationController) : Prop :=
  ∃ sk grp,
    skeleton_ c = Some sk ∧ controlled_skeleton_ c = Some grp ∧
    Forall2 (λ p h, ∃ d, sk !! p = Some d ∧ jh_name h = getName d ∧
                         dof_index sk (getName d) = Some p)
            grp (controlled_joint_handles_ c).

(** The models handed to the inverse-dynamics solve, tick after tick. *)
Fixpoint solve_inputs (c : GravityCompensationController) (hws : list RobotHW)
    : option (list Skeleton) :=
  match hws with
  | [] => Some []
  | hw :: rest =>
      sk1 ← model_before_solve c hw;
      r ← update c hw;
      sks ← solve_inputs r.1.1 rest;
      Some (sk1 :: sks)
  end.

(** The handles whose name resolves in the model. *)
Definition resolving_handles (sk : Skeleton) (handles : list JointHandle) : list JointHandle :=
  filter (λ h, is_Some (dof_index sk (jh_name h))) handles.

(** The names of the DOFs of the controlled group, in group order. *)
Definition controlled_names (c : GravityCompensationController) : option (list string) :=
  sk ← skeleton_ c;
  grp ← controlled_skeleton_ c;
  mapM (λ p, getName <$> sk !! p) grp.

(** The controlled ordering and the name-to-index map follow a list of
    names: the i-th controlled DOF is the one named by the i-th entry, and
    the map sends a name to [i] exactly when it is the i-th entry. *)
Definition ordered_as (names : list string) (c : GravityCompensationController) : Prop :=
  controlled_names c = Some names ∧
  ∀ i name, controlled_joint_map_ c !! name = Some i ↔ names !! i = Some name.

(** The readings of a joint of the effort interface: everything but the
    command slot. *)
Definition jd_sensed (jd : JointData) : double * double * double :=
  (jd_position jd, jd_velocity jd, jd_effort jd).

(** The name-to-index map agrees with the group: the group holds no DOF
    twice, every entry of the map points at the group position of the DOF
    its name resolves to, and every DOF of the group has its name in the
    map. *)
Definition map_agrees (sk : Skeleton) (grp : Group) (m : gmap string nat) : Prop :=
  NoDup grp ∧
  (∀ name i, m !! name = Some i → ∃ p, grp !! i = Some p ∧ dof_index sk name = Some p) ∧
  (∀ p, p ∈ grp → ∃ name, is_Some (m !! name) ∧ dof_index sk name = Some p).

(** ** Facts about the model *)

Lemma getDof_Some sk name p d :
  getDof sk name = Some (p, d) →
  sk !! p = Some d ∧ getName d = name ∧ dof_index sk name = Some p.
Proof.
  unfold dof_index. intros H. rewrite H.
  apply list_find_Some in H as (H1 & H2 & _). done.
Qed.

Lemma getDof_None sk name d :
  getDof sk name = None → d ∈ sk → getName d ≠ name.
Proof.
  intros H Hd. apply list_find_None in H.
  rewrite Forall_forall in H. by apply H.
Qed.

(** Name resolution only looks at the names of the model. *)
Lemma dof_index_names name (sk sk' : Skeleton) :
  getName <$> sk = getName <$> sk' → dof_index sk name = dof_index sk' name.
Proof.
  unfold dof_index, getDof. revert sk'.
  induction sk as [|d sk IH]; intros [|d' sk']; simpl; try done.
  intros [= Hd Hsk]. rewrite Hd.
  destruct (decide (getName d' = name)); [done|].
  specialize (IH _ Hsk).
  destruct (list_find _ sk) as [[]|], (list_find _ sk') as [[]|];
    simpl in *; congruence.
Qed.

Lemma alter_names (f : DegreeOfFreedom → DegreeOfFreedom) p (sk : Skeleton) :
  (∀ d, getName (f d) = getName d) →
  getName <$> alter f p sk = getName <$> sk.
Proof.
  intros Hf. apply list_eq. intros i.
  rewrite !list_lookup_fmap.
  destruct (decide (i = p)) as [->|].
  - rewrite list_lookup_alter_eq. destruct (sk !! p); simpl; [|done]. by rewrite Hf.
  - by rewrite list_lookup_alter_ne.
Qed.

Lemma sync_dof_name hw d : getName (sync_dof hw d) = getName d.
Proof. unfold sync_dof. by destruct (_ !! _). Qed.

Lemma sync_dof_idemp hw d : sync_dof hw (sync_dof hw d) = sync_dof hw d.
Proof.
  unfold sync_dof. destruct (_ !! getName d) as [jd|] eqn:E; simpl.
  - by rewrite E.
  - by rewrite E.
Qed.

Lemma sync_dof_registered hw d :
  is_Some (effort_joint_interface hw !! getName d) →
  dof_acceleration (sync_dof hw d) = 0%float ∧ getName (sync_dof hw d) = getName d ∧
  dof_force (sync_dof hw d) = dof_force d ∧
  Some (dof_position (sync_dof hw d)) = getPosition hw (mkJointHandle (getName d)) ∧
  Some (dof_velocity (sync_dof hw d)) = getVelocity hw (mkJointHandle (getName d)).
Proof.
  intros [jd E]. unfold sync_dof, getPosition, getVelocity. simpl. by rewrite E.
Qed.

Lemma elem_of_cons_ne_and {A} (x y : A) (l : list A) (Q : Prop) :
  x ≠ y → (x ∈ l ∧ Q) ↔ (x ∈ y :: l ∧ Q).
Proof.
  intros Hne. rewrite elem_of_cons. split.
  - intros [? ?]. split; [by right|done].
  - intros [[?|?] ?]; [done|by split].
Qed.

(** The first loop of [update], in closed form. *)
Lemma read_joint_states_spec hw handles sk :
  handles_registered hw handles →
  read_joint_states hw handles sk
  = Some (imap (synced hw (jh_name <$> handles) sk) sk).
Proof.
  unfold handles_registered.
  revert sk. induction handles as [|h hs IH]; intros sk Hreg; simpl.
  - f_equal. apply list_eq. intros i. rewrite list_lookup_imap.
    destruct (sk !! i) as [d|]; simpl; [|done].
    unfold synced. case_decide as H; [|done]. destruct H as [H _]. by apply elem_of_nil in H.
  - apply Forall_cons in Hreg as [[jd Hjd] Hreg].
    destruct (getDof sk (jh_name h)) as [[p0 d0]|] eqn:E.
    + apply getDof_Some in E as (Hp0 & Hname & Hidx).
      unfold getPosition, getVelocity. rewrite Hjd. simpl.
      rewrite IH by done. f_equal. apply list_eq. intros i.
      rewrite !list_lookup_imap.
      set (f := λ d, setAcceleration 0 (setVelocity (jd_velocity jd) (setPosition (jd_position jd) d))).
      assert (Hnames : getName <$> alter f p0 sk = getName <$> sk)
        by (by apply alter_names).
      destruct (decide (i = p0)) as [->|Hne].
      * rewrite list_lookup_alter_eq, Hp0. simpl. f_equal.
        assert (Hf : f d0 = sync_dof hw d0).
        { unfold sync_dof. by rewrite Hname, Hjd. }
        unfold synced. rewrite Hf, sync_dof_name, Hname.
        rewrite (dof_index_names _ _ _ Hnames), Hidx.
        rewrite sync_dof_idemp.
        assert (jh_name h ∈ jh_name h :: (jh_name <$> hs) ∧ Some p0 = Some p0)
          by (split; [apply elem_of_cons; by left|done]).
        repeat case_decide; done.
      * rewrite list_lookup_alter_ne by done.
        destruct (sk !! i) as [d|]; simpl; [|done]. f_equal.
        unfold synced. rewrite (dof_index_names _ _ _ Hnames).
        destruct (decide (getName d = jh_name h)) as [Hd|Hd].
        -- rewrite Hd, Hidx.
           rewrite !decide_False; [done| |]; intros [_ [=]]; done.
        -- apply decide_ext. by apply elem_of_cons_ne_and.
    + rewrite IH by done. f_equal. apply list_eq. intros i.
      rewrite !list_lookup_imap.
      destruct (sk !! i) as [d|] eqn:Hi; simpl; [|done]. f_equal.
      assert (getName d ≠ jh_name h).
      { eapply getDof_None; [done|]. by eapply list_elem_of_lookup_2. }
      unfold synced. apply decide_ext. by apply elem_of_cons_ne_and.
Qed.

Lemma computeInverseDynamics_lookup sk p :
  computeInverseDynamics sk !! p = setForce (inverseDynamics sk p) <$> sk !! p.
Proof. unfold computeInverseDynamics. by rewrite list_lookup_imap. Qed.

Lemma computeInverseDynamics_length sk :
  length (computeInverseDynamics sk) = length sk.
Proof. unfold computeInverseDynamics. apply length_imap. Qed.

Lemma setCommand_registered hw h v :
  is_Some (effort_joint_interface hw !! jh_name h) →
  ∃ hw', setCommand hw h v = Some hw' ∧
         ∀ name, is_Some (effort_joint_interface hw' !! name)
                 ↔ is_Some (effort_joint_interface hw !! name).
Proof.
  intros [jd E]. unfold setCommand. rewrite E. simpl. eexists. split; [done|].
  intros name. simpl. destruct (decide (jh_name h = name)) as [<-|].
  - rewrite lookup_insert_eq, E. split; eauto.
  - by rewrite lookup_insert_ne.
Qed.

(** The second loop of [update], in closed form. *)
Lemma write_commands_spec sk grp handles idxs hw log :
  handles_registered hw handles →
  Forall (λ i, is_Some (command_of sk grp handles i)) idxs →
  ∃ log', mapM (command_of sk grp handles) idxs = Some log' ∧
          write_commands sk grp handles idxs hw log
          = Some (write_log hw log', log ++ log').
Proof.
  revert hw log. induction idxs as [|i idxs IH]; intros hw log Hreg Hall.
  - exists []. simpl. by rewrite app_nil_r.
  - apply Forall_cons in Hall as [[hc Hi] Hall].
    pose proof Hi as Hi'. unfold command_of in Hi'.
    destruct (grp !! i) as [p|] eqn:Hp; simpl in Hi'; [|done].
    destruct (sk !! p) as [d|] eqn:Hd; simpl in Hi'; [|done].
    destruct (handles !! i) as [h|] eqn:Hh; simpl in Hi'; [|done].
    injection Hi' as <-.
    assert (is_Some (effort_joint_interface hw !! jh_name h)) as Hh'.
    { unfold handles_registered in Hreg. rewrite Forall_forall in Hreg.
      apply Hreg. by eapply list_elem_of_lookup_2. }
    destruct (setCommand_registered hw h (dof_force d) Hh') as (hw' & Hset & Hdom).
    destruct (IH hw' (log ++ [(h, dof_force d)])) as (log' & Hm & Hw); [|done|].
    { unfold handles_registered in *. eapply Forall_impl; [done|].
      intros h'. simpl. by rewrite Hdom. }
    exists ((h, dof_force d) :: log'). split.
    + simpl. by rewrite Hi, Hm.
    + simpl. rewrite Hp. simpl. rewrite Hd. simpl. rewrite Hh. simpl.
      rewrite Hset. simpl. rewrite Hw. by rewrite <-app_assoc.
Qed.

Lemma consistent_commands c hw sk grp sk' :
  consistent c hw → skeleton_ c = Some sk → controlled_skeleton_ c = Some grp →
  length sk' = length sk →
  Forall (λ i, is_Some (command_of sk' grp (controlled_joint_handles_ c) i))
         (seq 0 (getNumDofs grp)).
Proof.
  intros (sk0 & grp0 & Hsk & Hgrp & Hrange & Hlen & _) Hsk' Hgrp' Hlen'.
  rewrite Hsk in Hsk'. rewrite Hgrp in Hgrp'.
  injection Hsk' as ->. injection Hgrp' as ->.
  apply Forall_forall. intros i Hi. apply elem_of_seq in Hi as [_ Hi].
  simpl in Hi. unfold getNumDofs in Hi.
  destruct (lookup_lt_is_Some_2 grp i Hi) as [p Hp].
  rewrite Forall_forall in Hrange.
  assert (p < length sk') as Hp' by (rewrite Hlen'; apply Hrange; by eapply list_elem_of_lookup_2).
  destruct (lookup_lt_is_Some_2 sk' p Hp') as [d Hd].
  destruct (lookup_lt_is_Some_2 (controlled_joint_handles_ c) i) as [h Hh]; [lia|].
  unfold command_of. rewrite Hp. simpl. rewrite Hd. simpl. rewrite Hh. simpl. eauto.
Qed.

(** [update] in closed form: on consistent members it completes, the
    solve is run on the synchronised model, the commands are those of
    [command_of] for the indices of the group in increasing order, and the
    members other than the model are left as they were. *)
Lemma update_spec c hw :
  consistent c hw →
  ∃ sk grp log,
    skeleton_ c = Some sk ∧ controlled_skeleton_ c = Some grp ∧
    let sk1 := imap (synced hw (jh_name <$> controlled_joint_handles_ c) sk) sk in
    let sk2 := computeInverseDynamics sk1 in
    model_before_solve c hw = Some sk1 ∧
    mapM (command_of sk2 grp (controlled_joint_handles_ c)) (seq 0 (getNumDofs grp))
    = Some log ∧
    update c hw = Some (set_skeleton (Some sk2) c, write_log hw log, log).
Proof.
  intros Hc. pose proof Hc as (sk & grp & Hsk & Hgrp & Hrange & Hlen & Hreg).
  set (sk1 := imap (synced hw (jh_name <$> controlled_joint_handles_ c) sk) sk).
  assert (model_before_solve c hw = Some sk1) as H1.
  { unfold model_before_solve. rewrite Hsk. simpl. by apply read_joint_states_spec. }
  destruct (write_commands_spec (computeInverseDynamics sk1) grp
              (controlled_joint_handles_ c) (seq 0 (getNumDofs grp)) hw [])
    as (log & Hm & Hw); [done| |].
  { eapply consistent_commands; [done..|].
    unfold sk1. by rewrite computeInverseDynamics_length, length_imap. }
  exists sk, grp, log. split_and!; [done..|].
  unfold update. rewrite H1. simpl. rewrite Hgrp. simpl. rewrite Hw. done.
Qed.

(** ** Facts about initialisation *)

Lemma dof_index_Some sk name p :
  dof_index sk name = Some p ↔ ∃ d, getDof sk name = Some (p, d).
Proof.
  unfold dof_index. destruct (getDof sk name) as [[q d]|]; simpl.
  - split; [intros [= ->]; eauto|intros (? & [= -> _]); done].
  - split; [done|intros (? & ?); done].
Qed.

Lemma dof_index_is_Some sk name :
  is_Some (dof_index sk name) ↔ is_Some (getDof sk name).
Proof. unfold dof_index. by rewrite fmap_is_Some. Qed.

(** Two names that resolve to the same DOF are the same name. *)
Lemma dof_index_inj sk a b p :
  dof_index sk a = Some p → dof_index sk b = Some p → a = b.
Proof.
  rewrite !dof_index_Some. intros (d & Ha) (d' & Hb).
  apply getDof_Some in Ha as (Ha & <- & _).
  apply getDof_Some in Hb as (Hb & <- & _). congruence.
Qed.

(** A list with an element satisfying a decidable predicate splits at the
    first such element. *)
Lemma split_at_first {A} (P : A → Prop) `{!∀ x, Decision (P x)} (l : list A) :
  Exists P l →
  ∃ pre x post, l = pre ++ x :: post ∧ Forall (λ y, ¬ P y) pre ∧ P x.
Proof.
  induction l as [|a l IH]; intros HE.
  - by apply Exists_nil in HE.
  - destruct (decide (P a)) as [Ha|Ha].
    + exists [], a, l. by repeat split.
    + apply Exists_cons in HE as [?|HE]; [done|].
      destruct (IH HE) as (pre & x & post & -> & Hpre & Hx).
      exists (a :: pre), x, post. repeat split; [|done]. by constructor.
Qed.

Lemma elem_of_addDof grp dof p : p ∈ addDof grp dof ↔ p ∈ grp ∨ p = dof.
Proof.
  unfold addDof. case_decide as H.
  - split; [tauto|]. intros [?| ->]; done.
  - rewrite elem_of_app, list_elem_of_singleton. done.
Qed.

Lemma elem_of_foldl_addDof ptrs grp p :
  p ∈ foldl addDof grp ptrs ↔ p ∈ grp ∨ p ∈ ptrs.
Proof.
  revert grp. induction ptrs as [|q ptrs IH]; intros grp; simpl.
  - rewrite elem_of_nil. tauto.
  - rewrite IH, elem_of_addDof, elem_of_cons. tauto.
Qed.

Lemma addDof_nonempty grp dof : 0 < getNumDofs (addDof grp dof).
Proof.
  unfold addDof, getNumDofs. case_decide as H.
  - destruct grp; [by apply elem_of_nil in H|simpl; lia].
  - rewrite length_app. simpl. lia.
Qed.

(** The first loop of [init] over a concatenation. *)
Lemma add_controlled_dofs_app sk pre rest grp m :
  add_controlled_dofs sk (pre ++ rest) grp m
  = match add_controlled_dofs sk pre grp m with
    | (true, (grp', m')) => add_controlled_dofs sk rest grp' m'
    | failed => failed
    end.
Proof.
  revert grp m. induction pre as [|a pre IH]; intros grp m; simpl; [done|].
  destruct (getDof sk a) as [[p d]|]; [|done]. apply IH.
Qed.

(** When every name resolves, the loop completes and the group is the
    resolved pointers added in turn. *)
Lemma add_controlled_dofs_ok sk names grp m :
  Forall (λ name, is_Some (getDof sk name)) names →
  ∃ ptrs m',
    Forall2 (λ name p, dof_index sk name = Some p) names ptrs ∧
    add_controlled_dofs sk names grp m = (true, (foldl addDof grp ptrs, m')).
Proof.
  revert grp m. induction names as [|a names IH]; intros grp m Hall; simpl.
  - exists [], m. by split; [constructor|].
  - apply Forall_cons in Hall as [[[p d] Ha] Hall]. rewrite Ha.
    destruct (IH (addDof grp p) (emplace (getName d) (getNumDofs (addDof grp p) - 1) m) Hall)
      as (ptrs & m' & HF & Heq).
    exists (p :: ptrs), m'. split; [|done].
    constructor; [|done]. apply dof_index_Some. eauto.
Qed.

(** With distinct names, none of them in the group or the map yet, the
    group grows by the resolved pointers in list order and the map sends
    each name to its position. *)
Lemma add_controlled_dofs_nodup sk names grp m :
  NoDup names →
  Forall (λ name, is_Some (getDof sk name)) names →
  (∀ name p, name ∈ names → dof_index sk name = Some p → p ∉ grp) →
  (∀ name, name ∈ names → m !! name = None) →
  ∃ ptrs m',
    Forall2 (λ name p, dof_index sk name = Some p) names ptrs ∧
    add_controlled_dofs sk names grp m = (true, (grp ++ ptrs, m')) ∧
    (∀ i name, names !! i = Some name → m' !! name = Some (length grp + i)) ∧
    (∀ name, name ∉ names → m' !! name = m !! name).
Proof.
  revert grp m. induction names as [|a names IH]; intros grp m Hnd Hall Hgrp Hm; simpl.
  - exists [], m. rewrite app_nil_r. split_and!; [constructor|done| |done].
    intros i name Hi. done.
  - apply NoDup_cons in Hnd as [Ha Hnd].
    apply Forall_cons in Hall as [[[p d] Hpd] Hall]. rewrite Hpd.
    pose proof (getDof_Some _ _ _ _ Hpd) as (Hp & Hd & Hidx).
    assert (p ∉ grp) as Hpg by (eapply Hgrp; [left|done]).
    assert (addDof grp p = grp ++ [p]) as ->
      by (unfold addDof; by rewrite decide_False).
    assert (m !! a = None) as Hma by (apply Hm; left).
    assert (emplace (getName d) (getNumDofs (grp ++ [p]) - 1) m = <[a := length grp]> m) as ->.
    { unfold emplace, getNumDofs. rewrite Hd, Hma, length_app. simpl. f_equal. lia. }
    destruct (IH (grp ++ [p]) (<[a := length grp]> m)) as (ptrs & m' & HF & Heq & Hin & Hout);
      [done|done| | |].
    { intros name q Hname Hq. rewrite elem_of_app, list_elem_of_singleton.
      intros [Hq'| ->].
      - eapply Hgrp; [right| |]; done.
      - apply Ha. by rewrite (dof_index_inj _ _ _ _ Hidx Hq). }
    { intros name Hname. rewrite lookup_insert_ne; [apply Hm; by right|].
      intros ->. done. }
    exists (p :: ptrs), m'. split_and!.
    + by constructor.
    + rewrite Heq. by rewrite <-app_assoc.
    + intros [|i] name Hi; simpl in Hi.
      * injection Hi as <-. rewrite Hout by done. rewrite lookup_insert_eq.
        f_equal. lia.
      * rewrite (Hin _ _ Hi). rewrite length_app. simpl. f_equal. lia.
    + intros name Hname. apply not_elem_of_cons in Hname as [Hne Hname].
      rewrite Hout by done. by rewrite lookup_insert_ne.
Qed.

(** When the loop completes, every name resolved. *)
Lemma add_controlled_dofs_true sk names grp m r :
  add_controlled_dofs sk names grp m = (true, r) →
  Forall (λ name, is_Some (getDof sk name)) names.
Proof.
  revert grp m. induction names as [|a names IH]; intros grp m; simpl; [by constructor|].
  destruct (getDof sk a) as [[p d]|] eqn:E; [|done].
  intros H. constructor; [by eexists|by eapply IH].
Qed.

(** The loop stops at the first name that does not resolve, keeping the
    group and the map built from the names before it. *)
Lemma add_controlled_dofs_stop sk pre bad post grp m :
  Forall (λ name, is_Some (getDof sk name)) pre →
  getDof sk bad = None →
  ∃ ptrs m',
    Forall2 (λ name p, dof_index sk name = Some p) pre ptrs ∧
    add_controlled_dofs sk (pre ++ bad :: post) grp m
    = (false, (foldl addDof grp ptrs, m')).
Proof.
  intros Hpre Hbad.
  destruct (add_controlled_dofs_ok sk pre grp m Hpre) as (ptrs & m' & HF & Heq).
  exists ptrs, m'. split; [done|].
  rewrite add_controlled_dofs_app, Heq. simpl. by rewrite Hbad.
Qed.

Lemma get_controlled_handles_app ei sk pre rest hs :
  get_controlled_handles ei sk (pre ++ rest) hs
  = match get_controlled_handles ei sk pre hs with
    | Some (true, hs') => get_controlled_handles ei sk rest hs'
    | stopped => stopped
    end.
Proof.
  revert hs. induction pre as [|p pre IH]; intros hs; simpl; [done|].
  destruct (sk !! p) as [d|]; simpl; [|done].
  destruct (ei_getHandle ei (getName d)); [apply IH|done].
Qed.

Lemma ei_getHandle_Some ei name :
  is_Some (ei !! name) → ei_getHandle ei name = Some (mkJointHandle name).
Proof. intros [jd E]. unfold ei_getHandle. by rewrite E. Qed.

Lemma ei_getHandle_None ei name :
  ei !! name = None → ei_getHandle ei name = None.
Proof. intros E. unfold ei_getHandle. by rewrite E. Qed.

(** When every controlled DOF is commandable, the loop completes with one
    handle per DOF, in group order. *)
Lemma get_controlled_handles_ok ei sk dofs hs :
  Forall (commandable ei sk) dofs →
  ∃ handles, mapM (handle_of sk) dofs = Some handles ∧
             get_controlled_handles ei sk dofs hs = Some (true, hs ++ handles).
Proof.
  revert hs. induction dofs as [|p dofs IH]; intros hs Hall.
  - exists []. simpl. by rewrite app_nil_r.
  - apply Forall_cons in Hall as [(d & Hd & Hei) Hall].
    assert (handle_of sk p = Some (mkJointHandle (getName d))) as Hh
      by (unfold handle_of; by rewrite Hd).
    destruct (IH (hs ++ [mkJointHandle (getName d)]) Hall) as (handles & Hm & Heq).
    exists (mkJointHandle (getName d) :: handles). split.
    + cbn [mapM]. by rewrite Hh, Hm.
    + cbn [get_controlled_handles]. rewrite Hd. simpl.
      rewrite ei_getHandle_Some by done. rewrite Heq. by rewrite <-app_assoc.
Qed.

(** The loop stops at the first DOF whose handle is unavailable, keeping
    the handles acquired before it. *)
Lemma get_controlled_handles_stop ei sk pre bad post hs d :
  Forall (commandable ei sk) pre →
  sk !! bad = Some d → ei !! getName d = None →
  ∃ handles, mapM (handle_of sk) pre = Some handles ∧
             get_controlled_handles ei sk (pre ++ bad :: post) hs
             = Some (false, hs ++ handles).
Proof.
  intros Hpre Hd Hei.
  destruct (get_controlled_handles_ok ei sk pre hs Hpre) as (handles & Hm & Heq).
  exists handles. split; [done|].
  rewrite get_controlled_handles_app, Heq. simpl. rewrite Hd. simpl.
  by rewrite ei_getHandle_None.
Qed.

(** The third loop never fails: it keeps the DOFs that have a state
    handle, in model order. *)
Lemma get_state_handles_spec jsi dofs hs :
  get_state_handles jsi dofs hs
  = hs ++ (state_handle_of <$> filter (λ d, is_Some (jsi !! getName d)) dofs).
Proof.
  revert hs. induction dofs as [|d dofs IH]; intros hs; simpl.
  - by rewrite app_nil_r.
  - unfold jsi_getHandle. destruct (jsi !! getName d) as [js|] eqn:E.
    + rewrite IH. rewrite filter_cons_True by (by rewrite E).
      simpl. by rewrite <-app_assoc.
    + rewrite IH. rewrite filter_cons_False; [done|].
      rewrite E. by intros [? ?].
Qed.

(** The pointers of a group built by name resolution are live, carry
    their name, and resolve back. *)
Lemma resolved_group sk names ptrs p :
  Forall2 (λ name p, dof_index sk name = Some p) names ptrs →
  p ∈ foldl addDof [] ptrs →
  ∃ name d, name ∈ names ∧ sk !! p = Some d ∧ getName d = name ∧
            dof_index sk name = Some p.
Proof.
  intros HF Hp. apply elem_of_foldl_addDof in Hp as [Hp|Hp]; [by apply elem_of_nil in Hp|].
  apply list_elem_of_lookup in Hp as [i Hi].
  destruct (Forall2_lookup_r _ _ _ _ _ HF Hi) as (name & Hname & Hidx).
  pose proof Hidx as Hidx'. apply dof_index_Some in Hidx' as (d & Hd).
  apply getDof_Some in Hd as (Hd & Hn & _).
  exists name, d. split_and!; [|done..]. by eapply list_elem_of_lookup_2.
Qed.

Lemma NoDup_foldl_addDof ptrs grp : NoDup grp → NoDup (foldl addDof grp ptrs).
Proof.
  revert grp. induction ptrs as [|q ptrs IH]; intros grp Hnd; simpl; [done|].
  apply IH. unfold addDof. case_decide; [done|].
  apply NoDup_app. split_and!; [done| |apply NoDup_singleton].
  intros x Hx. rewrite list_elem_of_singleton. by intros ->.
Qed.

Lemma get_controlled_handles_true ei sk dofs hs hs' :
  get_controlled_handles ei sk dofs hs = Some (true, hs') →
  Forall (commandable ei sk) dofs.
Proof.
  revert hs. induction dofs as [|p dofs IH]; intros hs; simpl; [by constructor|].
  destruct (sk !! p) as [d|] eqn:Hd; simpl; [|done].
  unfold ei_getHandle. destruct (ei !! getName d) as [jd|] eqn:E; [|done].
  intros H. constructor; [|by eapply IH].
  exists d. split; [done|]. by rewrite E.
Qed.

(** [init] on a fresh controller, all fatal conditions being absent. *)
Lemma init_ok robot n doc sk names :
  getParam_string n (robot_description_parameter n) = Some doc →
  parseSkeletonString doc = Some sk →
  getParam_strings n "joints" = Some names →
  Forall (λ name, is_Some (getDof sk name)) names →
  Forall (λ name, is_Some (effort_joint_interface robot !! name)) names →
  ∃ ptrs m handles,
    Forall2 (λ name p, dof_index sk name = Some p) names ptrs ∧
    add_controlled_dofs sk names [] ∅ = (true, (foldl addDof [] ptrs, m)) ∧
    mapM (handle_of sk) (foldl addDof [] ptrs) = Some handles ∧
    init robot n GravityCompensationController_new
    = Some (true, mkController (Some sk) (Some (foldl addDof [] ptrs)) m handles
                    (state_handle_of <$>
                       filter (λ d, is_Some (joint_state_interface robot !! getName d)) sk)).
Proof.
  intros Hdoc Hparse Hnames Hres Heff.
  destruct (add_controlled_dofs_ok sk names [] ∅ Hres) as (ptrs & m & HF & Hadd).
  destruct (get_controlled_handles_ok (effort_joint_interface robot) sk
              (foldl addDof [] ptrs) []) as (handles & Hm & Hget).
  { apply Forall_forall. intros p Hp.
    destruct (resolved_group _ _ _ _ HF Hp) as (name & d & Hin & Hd & Hn & _).
    exists d. split; [done|]. rewrite Hn.
    rewrite Forall_forall in Heff. by apply Heff. }
  exists ptrs, m, handles. split_and!; [done..|].
  unfold init. rewrite Hdoc. simpl. rewrite Hparse, Hnames. simpl.
  rewrite Hadd. simpl. rewrite Hget. simpl.
  by rewrite get_state_handles_spec.
Qed.

(** Conversely, [init] returns true only when no fatal condition holds. *)
Lemma init_true_inv robot n c :
  init robot n GravityCompensationController_new = Some (true, c) →
  ∃ doc sk names,
    getParam_string n (robot_description_parameter n) = Some doc ∧
    parseSkeletonString doc = Some sk ∧
    getParam_strings n "joints" = Some names ∧
    Forall (λ name, is_Some (getDof sk name)) names ∧
    Forall (λ name, is_Some (effort_joint_interface robot !! name)) names.
Proof.
  unfold init.
  destruct (getParam_string n (robot_description_parameter n)) as [doc|]; [|done].
  simpl. destruct (parseSkeletonString doc) as [sk|] eqn:Hparse; [|done].
  destruct (getParam_strings n "joints") as [names|]; [|done].
  simpl. destruct (add_controlled_dofs sk names [] ∅) as [[] [grp m]] eqn:Hadd; [|done].
  simpl. destruct (get_controlled_handles _ sk grp []) as [[[] hs]|] eqn:Hget; [|done..].
  simpl. intros _.
  pose proof (add_controlled_dofs_true _ _ _ _ _ Hadd) as Hres.
  exists doc, sk, names. split_and!; [done..|].
  destruct (add_controlled_dofs_ok sk names [] ∅ Hres) as (ptrs & m' & HF & Hadd').
  rewrite Hadd in Hadd'. injection Hadd' as -> ->.
  apply get_controlled_handles_true in Hget. rewrite Forall_forall in Hget.
  apply Forall_forall. intros name Hname.
  rewrite Forall_forall in Hres. destruct (Hres _ Hname) as [[p d] Hpd].
  apply getDof_Some in Hpd as (Hd & Hn & Hidx).
  apply list_elem_of_lookup in Hname as [i Hi].
  destruct (Forall2_lookup_l _ _ _ _ _ HF Hi) as (q & Hq & Hidx').
  assert (q = p) as -> by congruence.
  destruct (Hget p) as (d' & Hd' & Hreg).
  { apply elem_of_foldl_addDof. right. by eapply list_elem_of_lookup_2. }
  congruence.
Qed.

(** A successful [init] leaves the members validated. *)
Lemma init_validated robot n c :
  init robot n GravityCompensationController_new = Some (true, c) →
  validated c ∧
  Forall (λ h, is_Some (effort_joint_interface robot !! jh_name h))
         (controlled_joint_handles_ c).
Proof.
  intros Hinit.
  destruct (init_true_inv _ _ _ Hinit) as (doc & sk & names & H1 & H2 & H3 & H4 & H5).
  destruct (init_ok robot n doc sk names H1 H2 H3 H4 H5)
    as (ptrs & m & handles & HF & _ & Hm & Heq).
  rewrite Hinit in Heq. injection Heq as ->. simpl.
  apply mapM_Some in Hm.
  assert (Forall2 (λ p h, ∃ d, sk !! p = Some d ∧ jh_name h = getName d ∧
                                dof_index sk (getName d) = Some p ∧
                                is_Some (effort_joint_interface robot !! jh_name h))
            (foldl addDof [] ptrs) handles) as HV.
  { apply Forall2_same_length_lookup. split; [by eapply Forall2_length|].
    intros i p h Hp Hh.
    pose proof (Forall2_lookup_lr _ _ _ _ _ _ Hm Hp Hh) as Hph.
    destruct (resolved_group _ _ _ p HF) as (name & d & Hin & Hd & Hn & Hidx);
      [by eapply list_elem_of_lookup_2|].
    unfold handle_of in Hph. rewrite Hd in Hph. injection Hph as <-. simpl.
    exists d. split_and!; [done|done|by rewrite Hn|].
    rewrite Hn. rewrite Forall_forall in H5. by apply H5. }
  split.
  - exists sk, (foldl addDof [] ptrs). split_and!; [done..|].
    eapply Forall2_impl; [done|]. simpl. intros p h (d & ? & ? & ? & _). by exists d.
  - eapply Forall2_Forall_r; [exact HV|].
    apply Forall_true. intros p h (d & _ & _ & _ & H). exact H.
Qed.

Lemma add_controlled_dofs_range sk names grp m ok grp' m' :
  add_controlled_dofs sk names grp m = (ok, (grp', m')) →
  Forall (λ p, p < length sk) grp → Forall (λ p, p < length sk) grp'.
Proof.
  revert grp m. induction names as [|a names IH]; intros grp m; simpl.
  - by intros [= _ <- _].
  - destruct (getDof sk a) as [[p d]|] eqn:E; [|by intros [= _ <- _]].
    intros H Hgrp. eapply IH; [done|].
    apply Forall_forall. intros q Hq. apply elem_of_addDof in Hq as [Hq| ->].
    + rewrite Forall_forall in Hgrp. by apply Hgrp.
    + apply getDof_Some in E as (E & _). by eapply lookup_lt_Some.
Qed.

Lemma get_controlled_handles_total ei sk dofs hs :
  Forall (λ p, p < length sk) dofs →
  is_Some (get_controlled_handles ei sk dofs hs).
Proof.
  revert hs. induction dofs as [|p dofs IH]; intros hs Hall; simpl; [by eexists|].
  apply Forall_cons in Hall as [Hp Hall].
  destruct (lookup_lt_is_Some_2 sk p Hp) as [d Hd]. rewrite Hd. simpl.
  destruct (ei_getHandle ei (getName d)); [by apply IH|by eexists].
Qed.

(** [init] always returns, and the model it leaves is the parse of the
    document found under the resolved key. *)
Lemma init_total robot n c :
  ∃ ok c', init robot n c = Some (ok, c') ∧
    skeleton_ c' = match getParam_string n (robot_description_parameter n) with
                   | Some doc => parseSkeletonString doc
                   | None => skeleton_ c
                   end.
Proof.
  unfold init.
  destruct (getParam_string n (robot_description_parameter n)) as [doc|]; [|by eauto].
  simpl. destruct (parseSkeletonString doc) as [sk|] eqn:Hparse; [|by eauto].
  destruct (getParam_strings n "joints") as [names|]; [|by eauto].
  simpl. destruct (add_controlled_dofs sk names [] _) as [ok [grp m]] eqn:Hadd.
  destruct ok; simpl; [|by eauto].
  destruct (get_controlled_handles_total (effort_joint_interface robot) sk grp
              (controlled_joint_handles_ c)) as [[ok hs] Hget].
  { eapply add_controlled_dofs_range; [done|constructor]. }
  rewrite Hget. simpl. destruct ok; simpl; by eauto.
Qed.

Lemma controller_manager_refused robot n hws c :
  init robot n GravityCompensationController_new = Some (false, c) →
  controller_manager robot n hws = Some (false, []).
Proof. intros H. unfold controller_manager. by rewrite H. Qed.

(** ** Facts about the control cycle on validated members *)

Lemma synced_name hw names sk p d : getName (synced hw names sk p d) = getName d.
Proof. unfold synced. case_decide; [apply sync_dof_name|done]. Qed.

Lemma imap_synced_names hw names (sk : Skeleton) :
  getName <$> imap (synced hw names sk) sk = getName <$> sk.
Proof.
  apply list_eq. intros i. rewrite !list_lookup_fmap, list_lookup_imap.
  destruct (sk !! i); simpl; [|done]. by rewrite synced_name.
Qed.

Lemma computeInverseDynamics_names (sk : Skeleton) :
  getName <$> computeInverseDynamics sk = getName <$> sk.
Proof.
  apply list_eq. intros i.
  rewrite !list_lookup_fmap, computeInverseDynamics_lookup.
  by destruct (sk !! i).
Qed.

Lemma validated_consistent c hw :
  validated c → handles_registered hw (controlled_joint_handles_ c) → consistent c hw.
Proof.
  intros (sk & grp & Hsk & Hgrp & HV) Hreg. exists sk, grp.
  split_and!; [done..| | |done].
  - apply Forall_forall. intros p Hp. apply list_elem_of_lookup in Hp as [i Hi].
    destruct (Forall2_lookup_l _ _ _ _ _ HV Hi) as (h & _ & d & Hd & _).
    by eapply lookup_lt_Some.
  - symmetry. by eapply Forall2_length.
Qed.

(** A DOF outside the group is the target of no handle. *)
Lemma validated_uncontrolled c hw sk grp p d :
  validated c → skeleton_ c = Some sk → controlled_skeleton_ c = Some grp →
  p ∉ grp → sk !! p = Some d →
  synced hw (jh_name <$> controlled_joint_handles_ c) sk p d = d.
Proof.
  intros (sk' & grp' & Hsk & Hgrp & HV) Hsk' Hgrp' Hp Hd.
  rewrite Hsk in Hsk'. rewrite Hgrp in Hgrp'.
  injection Hsk' as ->. injection Hgrp' as ->.
  unfold synced. case_decide as H; [|done]. exfalso.
  destruct H as [Hin Hidx].
  apply list_elem_of_fmap in Hin as (h & Hh & Hin).
  apply list_elem_of_lookup in Hin as [i Hi].
  destruct (Forall2_lookup_r _ _ _ _ _ HV Hi) as (q & Hq & d' & Hd' & Hn & Hidx').
  rewrite Hh, Hn, Hidx' in Hidx. injection Hidx as ->.
  apply Hp. by eapply list_elem_of_lookup_2.
Qed.

(** A DOF of the group is synchronised from its own handle. *)
Lemma validated_controlled c hw sk grp p d :
  validated c → skeleton_ c = Some sk → controlled_skeleton_ c = Some grp →
  p ∈ grp → sk !! p = Some d →
  synced hw (jh_name <$> controlled_joint_handles_ c) sk p d = sync_dof hw d ∧
  mkJointHandle (getName d) ∈ controlled_joint_handles_ c.
Proof.
  intros (sk' & grp' & Hsk & Hgrp & HV) Hsk' Hgrp' Hp Hd.
  rewrite Hsk in Hsk'. rewrite Hgrp in Hgrp'.
  injection Hsk' as ->. injection Hgrp' as ->.
  apply list_elem_of_lookup in Hp as [i Hi].
  destruct (Forall2_lookup_l _ _ _ _ _ HV Hi) as (h & Hh & d' & Hd' & Hn & Hidx).
  assert (d' = d) as -> by congruence.
  assert (h = mkJointHandle (getName d)) as -> by (destruct h; simpl in *; congruence).
  split; [|by eapply list_elem_of_lookup_2].
  unfold synced. rewrite decide_True; [done|]. split; [|done].
  apply list_elem_of_fmap. exists (mkJointHandle (getName d)).
  split; [done|by eapply list_elem_of_lookup_2].
Qed.

(** On validated members every DOF of the group reaches the solve
    synchronised, with zero acceleration. *)
Lemma validated_zero_acceleration c hw sk grp p d :
  validated c → handles_registered hw (controlled_joint_handles_ c) →
  skeleton_ c = Some sk → controlled_skeleton_ c = Some grp →
  p ∈ grp → sk !! p = Some d →
  ∃ sk1, model_before_solve c hw = Some sk1 ∧
         sk1 !! p = Some (sync_dof hw d) ∧
         dof_acceleration (sync_dof hw d) = 0%float.
Proof.
  intros HV Hreg Hsk Hgrp Hp Hd.
  destruct (validated_controlled c hw sk grp p d HV Hsk Hgrp Hp Hd) as [Hs Hh].
  eexists. split_and!.
  - unfold model_before_solve. rewrite Hsk. simpl. by apply read_joint_states_spec.
  - rewrite list_lookup_imap, Hd. simpl. by rewrite Hs.
  - unfold handles_registered in Hreg. rewrite Forall_forall in Hreg.
    by apply sync_dof_registered, (Hreg _ Hh).
Qed.

(** [update] completes on validated members and keeps them validated;
    only the model changes. *)
Lemma update_validated c hw :
  validated c → handles_registered hw (controlled_joint_handles_ c) →
  ∃ sk sk1 hw' log,
    skeleton_ c = Some sk ∧
    sk1 = imap (synced hw (jh_name <$> controlled_joint_handles_ c) sk) sk ∧
    model_before_solve c hw = Some sk1 ∧
    update c hw = Some (set_skeleton (Some (computeInverseDynamics sk1)) c, hw', log) ∧
    validated (set_skeleton (Some (computeInverseDynamics sk1)) c).
Proof.
  intros HV Hreg.
  destruct (update_spec c hw (validated_consistent _ _ HV Hreg))
    as (sk & grp & log & Hsk & Hgrp & H1 & _ & Hup).
  eexists sk, _, _, log. split_and!; [done|reflexivity|done|done|].
  destruct HV as (sk' & grp' & Hsk' & Hgrp' & HV).
  rewrite Hsk in Hsk'. rewrite Hgrp in Hgrp'.
  injection Hsk' as <-. injection Hgrp' as <-.
  eexists _, grp. split_and!; [reflexivity|done|]. simpl.
  eapply Forall2_impl; [exact HV|]. simpl.
  intros p h (d & Hd & Hn & Hidx).
  exists (setForce (inverseDynamics
                      (imap (synced hw (jh_name <$> controlled_joint_handles_ c) sk) sk) p)
            (synced hw (jh_name <$> controlled_joint_handles_ c) sk p d)).
  rewrite computeInverseDynamics_lookup, list_lookup_imap, Hd.
  change (getName (setForce ?f ?x)) with (getName x). rewrite synced_name.
  split_and!; [done..|].
  rewrite <-Hidx. apply dof_index_names.
  by rewrite computeInverseDynamics_names, imap_synced_names.
Qed.

(** [update] never reads the state-handle list. *)
Lemma model_before_solve_state_handles l c hw :
  model_before_solve (set_joint_state_handles l c) hw = model_before_solve c hw.
Proof. reflexivity. Qed.

Lemma update_state_handles l c hw :
  update (set_joint_state_handles l c) hw
  = (λ r, (set_joint_state_handles l r.1.1, r.1.2, r.2)) <$> update c hw.
Proof.
  unfold update. rewrite model_before_solve_state_handles.
  destruct (model_before_solve c hw) as [sk1|]; simpl; [|done].
  destruct (controlled_skeleton_ c) as [grp|]; simpl; [|done].
  by destruct (write_commands _ _ _ _ _ _) as [[hw' log]|].
Qed.

Lemma solve_inputs_state_handles l c hws :
  solve_inputs (set_joint_state_handles l c) hws = solve_inputs c hws.
Proof.
  revert c. induction hws as [|hw hws IH]; intros c; simpl; [done|].
  rewrite model_before_solve_state_handles, update_state_handles.
  destruct (model_before_solve c hw) as [sk1|]; simpl; [|done].
  destruct (update c hw) as [[[c' hw'] log]|]; simpl; [|done].
  by rewrite IH.
Qed.

Lemma run_ticks_state_handles l c hws :
  snd <$> run_ticks (set_joint_state_handles l c) hws = snd <$> run_ticks c hws.
Proof.
  revert c. induction hws as [|hw hws IH]; intros c; simpl; [done|].
  rewrite update_state_handles.
  destruct (update c hw) as [[[c' hw'] log]|]; simpl; [|done].
  specialize (IH c').
  destruct (run_ticks (set_joint_state_handles l c') hws) as [[]|],
           (run_ticks c' hws) as [[]|]; simpl in *; congruence.
Qed.

(** Tick after tick, a DOF outside the group reaches the solve with the
    position, velocity and acceleration it had to begin with. *)
Lemma solve_inputs_frame c hws :
  validated c →
  Forall (λ hw, handles_registered hw (controlled_joint_handles_ c)) hws →
  ∃ sks, solve_inputs c hws = Some sks ∧ length sks = length hws ∧
    ∀ sk grp p d,
      skeleton_ c = Some sk → controlled_skeleton_ c = Some grp →
      p ∉ grp → sk !! p = Some d →
      Forall (λ sk1, ∃ d1, sk1 !! p = Some d1 ∧ getName d1 = getName d ∧
                           kinematic_state d1 = kinematic_state d) sks.
Proof.
  revert c. induction hws as [|hw hws IH]; intros c HV Hregs.
  - exists []. split_and!; [done..|]. intros. constructor.
  - apply Forall_cons in Hregs as [Hreg Hregs].
    destruct (update_validated c hw HV Hreg)
      as (sk & sk1 & hw' & log & Hsk & Hsk1 & H1 & Hup & HV').
    destruct (IH _ HV' Hregs) as (sks & Hsks & Hlen & Hframe).
    exists (sk1 :: sks). simpl. rewrite H1, Hup. simpl. rewrite Hsks. simpl.
    split_and!; [done|by rewrite Hlen|].
    intros sk0 grp p d Hsk0 Hgrp Hp Hd.
    rewrite Hsk in Hsk0. injection Hsk0 as <-.
    assert (sk1 !! p = Some d) as Hd1.
    { rewrite Hsk1, list_lookup_imap, Hd. simpl. f_equal.
      by eapply validated_uncontrolled. }
    constructor; [by exists d|].
    specialize (Hframe (computeInverseDynamics sk1) grp p
                  (setForce (inverseDynamics sk1 p) d) eq_refl Hgrp Hp).
    apply Hframe. by rewrite computeInverseDynamics_lookup, Hd1.
Qed.

(** The control loop completes on every tick and keeps the members
    validated. *)
Lemma run_ticks_validated c hws :
  validated c →
  Forall (λ hw, handles_registered hw (controlled_joint_handles_ c)) hws →
  ∃ c' logs, run_ticks c hws = Some (c', logs) ∧ validated c' ∧
             length logs = length hws.
Proof.
  revert c. induction hws as [|hw hws IH]; intros c HV Hregs.
  - exists c, []. by split_and!.
  - apply Forall_cons in Hregs as [Hreg Hregs].
    destruct (update_validated c hw HV Hreg)
      as (sk & sk1 & hw' & log & _ & _ & _ & Hup & HV').
    destruct (IH _ HV' Hregs) as (c' & logs & Hrun & HV'' & Hlen).
    exists c', (log :: logs). simpl. rewrite Hup. simpl. rewrite Hrun. simpl.
    split_and!; [done|done|by rewrite Hlen].
Qed.

(** The commands of a tick, index by index. *)
Lemma commands_lookup sk grp handles log i p h :
  mapM (command_of sk grp handles) (seq 0 (getNumDofs grp)) = Some log →
  grp !! i = Some p → handles !! i = Some h →
  ∃ d, sk !! p = Some d ∧ log !! i = Some (h, dof_force d).
Proof.
  intros Hm Hp Hh. apply mapM_Some in Hm.
  assert (seq 0 (getNumDofs grp) !! i = Some i) as Hi.
  { apply lookup_seq. split; [done|]. by eapply lookup_lt_Some. }
  destruct (Forall2_lookup_l _ _ _ _ _ Hm Hi) as (hc & Hlog & Hcmd).
  unfold command_of in Hcmd. rewrite Hp in Hcmd. simpl in Hcmd.
  destruct (sk !! p) as [d|]; simpl in *; [|done].
  rewrite Hh in Hcmd. simpl in Hcmd. injection Hcmd as <-.
  by exists d.
Qed.

(** ** The properties of the control cycle *)

(** C1. On every tick, for every controlled handle whose name resolves in
    the model, the DOF it resolves to reaches the inverse-dynamics solve
    with acceleration exactly zero, whatever position and velocity the
    hardware reports; those two are copied into the DOF in the same pass. *)
Theorem update_zeroes_acceleration c hw :
  consistent c hw →
  ∃ sk sk1 c' hw' log,
    skeleton_ c = Some sk ∧
    model_before_solve c hw = Some sk1 ∧
    update c hw = Some (c', hw', log) ∧
    skeleton_ c' = Some (computeInverseDynamics sk1) ∧
    ∀ h p d0,
      h ∈ controlled_joint_handles_ c → getDof sk (jh_name h) = Some (p, d0) →
      ∃ d, sk1 !! p = Some d ∧ getName d = jh_name h ∧
           dof_acceleration d = 0%float ∧
           getPosition hw h = Some (dof_position d) ∧
           getVelocity hw h = Some (dof_velocity d).
Proof.
  intros Hc. destruct (update_spec c hw Hc) as (sk & grp & log & Hsk & Hgrp & H1 & _ & Hup).
  destruct Hc as (_ & _ & _ & _ & _ & _ & Hreg).
  eexists sk, _, _, _, log. split_and!; [done|exact H1|exact Hup|done|].
  intros h p d0 Hh Hget. apply getDof_Some in Hget as (Hp & Hn & Hidx).
  exists (sync_dof hw d0). split.
  - rewrite list_lookup_imap, Hp. simpl. f_equal. unfold synced.
    rewrite decide_True; [done|]. rewrite Hn. split; [|done].
    apply list_elem_of_fmap. eauto.
  - unfold handles_registered in Hreg. rewrite Forall_forall in Hreg.
    specialize (Hreg h Hh). rewrite <-Hn in Hreg.
    destruct (sync_dof_registered hw d0 Hreg) as (Ha & Hn' & _ & Hq & Hdq).
    assert (h = mkJointHandle (getName d0)) as -> by (destruct h; simpl in *; congruence).
    split_and!; done.
Qed.

(** C2. On every tick, [update] issues exactly one torque command per
    controlled DOF, in the order of the controlled group: the i-th command
    goes to the i-th handle and carries the generalized force read from
    the i-th DOF of the group after the inverse-dynamics solve. *)
Theorem update_commands_in_order c hw :
  consistent c hw →
  ∃ sk1 grp c' hw' log,
    controlled_skeleton_ c = Some grp ∧
    model_before_solve c hw = Some sk1 ∧
    update c hw = Some (c', hw', log) ∧
    skeleton_ c' = Some (computeInverseDynamics sk1) ∧
    length log = getNumDofs grp ∧
    hw' = write_log hw log ∧
    ∀ i p h,
      grp !! i = Some p → controlled_joint_handles_ c !! i = Some h →
      ∃ d, computeInverseDynamics sk1 !! p = Some d ∧
           dof_force d = inverseDynamics sk1 p ∧
           log !! i = Some (h, dof_force d).
Proof.
  intros Hc. destruct (update_spec c hw Hc) as (sk & grp & log & Hsk & Hgrp & H1 & Hm & Hup).
  eexists _, grp, _, _, log. split_and!; [done|exact H1|exact Hup|done| |done|].
  - apply mapM_Some, Forall2_length in Hm. by rewrite length_seq in Hm.
  - intros i p h Hp Hh.
    destruct (commands_lookup _ _ _ _ _ _ _ Hm Hp Hh) as (d & Hd & Hlog).
    exists d. split_and!; [done| |done].
    rewrite computeInverseDynamics_lookup in Hd.
    destruct (imap _ _ !! p); simpl in Hd; [|done]. by injection Hd as <-.
Qed.

(** C7. When the name of a controlled handle does not resolve in the
    model, [update] still completes: that handle is passed over, as if it
    were not in the list; every handle whose name resolves has its DOF
    synchronised; a command is issued for every DOF of the group; and the
    handle list and the group are unchanged, so the next tick looks the
    name up again. *)
Theorem update_skips_unresolved c hw h :
  consistent c hw →
  h ∈ controlled_joint_handles_ c →
  (∀ sk, skeleton_ c = Some sk → getDof sk (jh_name h) = None) →
  ∃ sk sk1 grp c' hw' log,
    skeleton_ c = Some sk ∧ controlled_skeleton_ c = Some grp ∧
    model_before_solve c hw = Some sk1 ∧
    update c hw = Some (c', hw', log) ∧
    (h ∉ resolving_handles sk (controlled_joint_handles_ c)) ∧
    read_joint_states hw (resolving_handles sk (controlled_joint_handles_ c)) sk = Some sk1 ∧
    (∀ h' p d0,
       h' ∈ controlled_joint_handles_ c → getDof sk (jh_name h') = Some (p, d0) →
       sk1 !! p = Some (sync_dof hw d0)) ∧
    length log = getNumDofs grp ∧
    controlled_joint_handles_ c' = controlled_joint_handles_ c ∧
    controlled_skeleton_ c' = controlled_skeleton_ c.
Proof.
  intros Hc Hh Hnone.
  destruct (update_spec c hw Hc) as (sk & grp & log & Hsk & Hgrp & H1 & Hm & Hup).
  destruct Hc as (_ & _ & _ & _ & _ & _ & Hreg).
  eexists sk, _, grp, _, _, log. unfold resolving_handles.
  split_and!; [done|done|exact H1|exact Hup|..].
  - rewrite list_elem_of_filter. intros [[p Hp] _].
    apply dof_index_Some in Hp as (d & Hd). by rewrite (Hnone sk Hsk) in Hd.
  - rewrite read_joint_states_spec.
    2:{ unfold handles_registered in *. rewrite Forall_forall in Hreg |- *.
        intros h' Hh'. apply Hreg. by apply list_elem_of_filter in Hh' as [_ ?]. }
    f_equal. apply list_eq. intros i. rewrite !list_lookup_imap.
    destruct (sk !! i) as [d|]; simpl; [|done]. f_equal.
    unfold synced. apply decide_ext. rewrite !list_elem_of_fmap.
    split; intros [(h' & Hn & Hin) Hidx]; (split; [|done]); exists h'; (split; [done|]).
    + by apply list_elem_of_filter in Hin as [_ Hin].
    + apply list_elem_of_filter. split; [|done]. rewrite <-Hn, Hidx. by eexists.
  - intros h' p d0 Hh' Hget. apply getDof_Some in Hget as (Hp & Hn & Hidx).
    rewrite list_lookup_imap, Hp. simpl. f_equal. unfold synced.
    rewrite decide_True; [done|]. rewrite Hn. split; [|done].
    apply list_elem_of_fmap. eauto.
  - apply mapM_Some, Forall2_length in Hm. by rewrite length_seq in Hm.
  - done.
  - done.
Qed.

(** C10. The second loop of [update] makes no check.  When the name of
    the i-th handle does not resolve in the first loop, the i-th command
    is written all the same, to that handle, with the force the solve
    computed for the i-th DOF of the group; and when no handle carries the
    current name of that DOF, the solve received the DOF exactly as the
    previous tick left it. *)
Theorem update_commands_unresolved c hw sk grp i h p d :
  consistent c hw →
  skeleton_ c = Some sk → controlled_skeleton_ c = Some grp →
  controlled_joint_handles_ c !! i = Some h → grp !! i = Some p →
  sk !! p = Some d →
  getDof sk (jh_name h) = None →
  ∃ sk1 c' hw' log,
    model_before_solve c hw = Some sk1 ∧
    update c hw = Some (c', hw', log) ∧
    log !! i = Some (h, inverseDynamics sk1 p) ∧
    hw' = write_log hw log ∧
    (getName d ∉ jh_name <$> controlled_joint_handles_ c → sk1 !! p = Some d).
Proof.
  intros Hc Hsk Hgrp Hh Hp Hd Hnone.
  destruct (update_spec c hw Hc) as (sk' & grp' & log & Hsk' & Hgrp' & H1 & Hm & Hup).
  rewrite Hsk in Hsk'. rewrite Hgrp in Hgrp'.
  injection Hsk' as <-. injection Hgrp' as <-.
  eexists _, _, _, log. split_and!; [exact H1|exact Hup| |done|].
  - destruct (commands_lookup _ _ _ _ _ _ _ Hm Hp Hh) as (d' & Hd' & Hlog).
    rewrite Hlog. rewrite computeInverseDynamics_lookup in Hd'.
    destruct (imap _ _ !! p); simpl in Hd'; [|done]. by injection Hd' as <-.
  - intros Hnot. rewrite list_lookup_imap, Hd. simpl. f_equal. unfold synced.
    rewrite decide_False; [done|]. by intros [? _].
Qed.

(** ** The properties of initialisation *)

(** C3, as amended.  When the description is present and parses, the
    joint list is present, every name in it resolves in the model and has
    a command handle, and no name occurs twice in the list, [init] returns
    true, the controlled DOFs are those named by the list, in list order,
    the name-to-index map sends each name to its position in the list, and
    the command handles follow the same order. *)
Theorem init_succeeds_in_list_order robot n doc sk names :
  getParam_string n (robot_description_parameter n) = Some doc →
  parseSkeletonString doc = Some sk →
  getParam_strings n "joints" = Some names →
  Forall (λ name, is_Some (getDof sk name)) names →
  Forall (λ name, is_Some (effort_joint_interface robot !! name)) names →
  NoDup names →
  ∃ c, init robot n GravityCompensationController_new = Some (true, c) ∧
       skeleton_ c = Some sk ∧
       ordered_as names c ∧
       controlled_joint_handles_ c = mkJointHandle <$> names.
Proof.
  intros Hdoc Hparse Hnames Hres Heff Hnd.
  destruct (init_ok robot n doc sk names Hdoc Hparse Hnames Hres Heff)
    as (ptrs & m & handles & HF & Hadd & Hm & Hinit).
  destruct (add_controlled_dofs_nodup sk names [] ∅ Hnd Hres)
    as (ptrs' & m' & HF' & Hadd' & Hin & Hout).
  { intros ? ? _ _ H. by apply elem_of_nil in H. }
  { intros. apply lookup_empty. }
  rewrite Hadd in Hadd'. simpl in Hadd'. injection Hadd' as Hgrp ->.
  rewrite Hgrp in Hm, Hinit.
  assert (mapM (λ p, getName <$> sk !! p) ptrs' = Some names) as Hcn.
  { apply mapM_Some. apply Forall2_flip. eapply Forall2_impl; [exact HF'|].
    simpl. intros name p Hidx. apply dof_index_Some in Hidx as (d & Hd).
    apply getDof_Some in Hd as (Hd & Hn & _). by rewrite Hd, <-Hn. }
  assert (handles = mkJointHandle <$> names) as ->.
  { apply mapM_Some in Hm. apply list_eq. intros i. rewrite list_lookup_fmap.
    destruct (names !! i) as [name|] eqn:Hi; simpl.
    - destruct (Forall2_lookup_l _ _ _ _ _ HF' Hi) as (p & Hp & Hidx).
      destruct (Forall2_lookup_l _ _ _ _ _ Hm Hp) as (h & Hh & Hho).
      apply dof_index_Some in Hidx as (d & Hd).
      apply getDof_Some in Hd as (Hd & Hn & _).
      unfold handle_of in Hho. rewrite Hd in Hho. simpl in Hho.
      rewrite Hh. congruence.
    - apply lookup_ge_None. apply lookup_ge_None in Hi.
      apply Forall2_length in HF', Hm. lia. }
  eexists. split; [exact Hinit|]. simpl. split_and!; [done| |done].
  split.
  - unfold controlled_names. simpl. exact Hcn.
  - simpl. intros i name. split.
    + intros Hmi. destruct (decide (name ∈ names)) as [Hname|Hname].
      * apply list_elem_of_lookup in Hname as [j Hj].
        rewrite (Hin _ _ Hj) in Hmi. simpl in Hmi. congruence.
      * rewrite (Hout _ Hname), lookup_empty in Hmi. done.
    + intros Hi. by rewrite (Hin _ _ Hi).
Qed.

(** C4. When the description and the joint list are present and some name
    of the list does not resolve in the model, [init] returns false at the
    first such name: the group holds the DOFs of the names before it, no
    handle has been acquired, and the controller manager never runs the
    control loop. *)
Theorem init_fails_on_unresolved_name robot n doc sk names hws :
  getParam_string n (robot_description_parameter n) = Some doc →
  parseSkeletonString doc = Some sk →
  getParam_strings n "joints" = Some names →
  Exists (λ name, getDof sk name = None) names →
  ∃ pre bad post ptrs m,
    names = pre ++ bad :: post ∧
    Forall (λ name, is_Some (getDof sk name)) pre ∧
    getDof sk bad = None ∧
    Forall2 (λ name p, dof_index sk name = Some p) pre ptrs ∧
    init robot n GravityCompensationController_new
    = Some (false, mkController (Some sk) (Some (foldl addDof [] ptrs)) m [] []) ∧
    controller_manager robot n hws = Some (false, []).
Proof.
  intros Hdoc Hparse Hnames Hex.
  destruct (split_at_first (λ name, ¬ is_Some (dof_index sk name)) names)
    as (pre & bad & post & -> & Hpre & Hbad).
  { eapply Exists_impl; [exact Hex|]. simpl. intros name Hname.
    rewrite dof_index_is_Some, Hname. by intros [? ?]. }
  assert (Forall (λ name, is_Some (getDof sk name)) pre) as Hpre'.
  { eapply Forall_impl; [exact Hpre|]. simpl. intros name Hname.
    apply dof_index_is_Some. by apply dec_stable. }
  assert (getDof sk bad = None) as Hbad'.
  { rewrite dof_index_is_Some in Hbad. by apply eq_None_not_Some. }
  destruct (add_controlled_dofs_stop sk pre bad post [] ∅ Hpre' Hbad')
    as (ptrs & m & HF & Hadd).
  assert (init robot n GravityCompensationController_new
          = Some (false, mkController (Some sk) (Some (foldl addDof [] ptrs)) m [] []))
    as Hinit.
  { unfold init. rewrite Hdoc. simpl. rewrite Hparse, Hnames. simpl.
    by rewrite Hadd. }
  exists pre, bad, post, ptrs, m. split_and!; [done..|].
  by eapply controller_manager_refused.
Qed.

(** C5. When the description and the joint list are present, every name
    resolves, and some controlled DOF has no command handle, [init]
    returns false at the first such DOF of the group: the handles of the
    DOFs before it have been acquired, no state handle has, and the
    controller manager never runs the control loop. *)
Theorem init_fails_on_missing_command_handle robot n doc sk names hws :
  getParam_string n (robot_description_parameter n) = Some doc →
  parseSkeletonString doc = Some sk →
  getParam_strings n "joints" = Some names →
  Forall (λ name, is_Some (getDof sk name)) names →
  Exists (λ name, effort_joint_interface robot !! name = None) names →
  ∃ pre bad post d handles m,
    Forall (commandable (effort_joint_interface robot) sk) pre ∧
    sk !! bad = Some d ∧ getName d ∈ names ∧
    effort_joint_interface robot !! getName d = None ∧
    mapM (handle_of sk) pre = Some handles ∧
    init robot n GravityCompensationController_new
    = Some (false, mkController (Some sk) (Some (pre ++ bad :: post)) m handles []) ∧
    controller_manager robot n hws = Some (false, []).
Proof.
  intros Hdoc Hparse Hnames Hres Hex.
  destruct (add_controlled_dofs_ok sk names [] ∅ Hres) as (ptrs & m & HF & Hadd).
  set (ei := effort_joint_interface robot) in *.
  destruct (split_at_first (λ p, ¬ commandable ei sk p) (foldl addDof [] ptrs))
    as (pre & bad & post & Hgrp & Hpre & Hbad).
  { apply Exists_exists in Hex as (name & Hname & Hnone).
    apply list_elem_of_lookup in Hname as [i Hi].
    destruct (Forall2_lookup_l _ _ _ _ _ HF Hi) as (p & Hp & Hidx).
    apply Exists_exists. exists p. split.
    - apply elem_of_foldl_addDof. right. by eapply list_elem_of_lookup_2.
    - intros (d & Hd & Hsome). apply dof_index_Some in Hidx as (d' & Hd').
      apply getDof_Some in Hd' as (Hd' & Hn & _).
      assert (d' = d) as -> by congruence.
      rewrite Hn, Hnone in Hsome. by destruct Hsome. }
  assert (Forall (commandable ei sk) pre) as Hpre'.
  { eapply Forall_impl; [exact Hpre|]. simpl. intros p. apply dec_stable. }
  destruct (resolved_group sk names ptrs bad HF) as (name & d & Hin & Hd & Hn & _).
  { rewrite Hgrp. apply elem_of_app. right. by left. }
  assert (ei !! getName d = None) as Hnone.
  { apply eq_None_not_Some. intros Hsome. apply Hbad. by exists d. }
  destruct (get_controlled_handles_stop ei sk pre bad post [] d Hpre' Hd Hnone)
    as (handles & Hm & Hget).
  assert (init robot n GravityCompensationController_new
          = Some (false, mkController (Some sk) (Some (pre ++ bad :: post)) m handles []))
    as Hinit.
  { unfold init. rewrite Hdoc. simpl. rewrite Hparse, Hnames. simpl.
    rewrite Hadd. simpl. rewrite Hgrp. fold ei. rewrite Hget. done. }
  exists pre, bad, post, d, handles, m. split_and!; [done|done|by rewrite Hn|done..|].
  by eapply controller_manager_refused.
Qed.

(** C6. No fatal condition being present, [init] returns true even when
    the state handle of a non-controlled DOF cannot be acquired.  The
    state-handle list holds the handles of the DOFs that have one, in
    model order, so this DOF is not in it; and on every later tick the DOF
    reaches the solve with the position, velocity and acceleration of the
    parsed model: it is never synchronised. *)
Theorem init_tolerates_missing_state_handle robot n doc sk names p d hws :
  getParam_string n (robot_description_parameter n) = Some doc →
  parseSkeletonString doc = Some sk →
  getParam_strings n "joints" = Some names →
  Forall (λ name, is_Some (getDof sk name)) names →
  Forall (λ name, is_Some (effort_joint_interface robot !! name)) names →
  sk !! p = Some d → getName d ∉ names →
  joint_state_interface robot !! getName d = None →
  Forall (λ hw, Forall (λ name, is_Some (effort_joint_interface hw !! name)) names) hws →
  ∃ c sks,
    init robot n GravityCompensationController_new = Some (true, c) ∧
    joint_state_handles_ c
    = (state_handle_of <$>
         filter (λ d, is_Some (joint_state_interface robot !! getName d)) sk) ∧
    (state_handle_of d ∉ joint_state_handles_ c) ∧
    solve_inputs c hws = Some sks ∧ length sks = length hws ∧
    Forall (λ sk1, ∃ d1, sk1 !! p = Some d1 ∧ getName d1 = getName d ∧
                         kinematic_state d1 = kinematic_state d) sks.
Proof.
  intros Hdoc Hparse Hnames Hres Heff Hd Hnc Hjsi Hhws.
  destruct (init_ok robot n doc sk names Hdoc Hparse Hnames Hres Heff)
    as (ptrs & m & handles & HF & Hadd & Hm & Hinit).
  destruct (init_validated _ _ _ Hinit) as [HV _].
  set (c := mkController (Some sk) (Some (foldl addDof [] ptrs)) m handles
              (state_handle_of <$>
                 filter (λ d, is_Some (joint_state_interface robot !! getName d)) sk)) in *.
  assert (∀ h, h ∈ handles → jh_name h ∈ names) as Hhn.
  { intros h Hh. apply mapM_Some in Hm. apply list_elem_of_lookup in Hh as [i Hi].
    destruct (Forall2_lookup_r _ _ _ _ _ Hm Hi) as (q & Hq & Hho).
    destruct (resolved_group sk names ptrs q HF) as (name & d' & Hin & Hd' & Hn & _);
      [by eapply list_elem_of_lookup_2|].
    unfold handle_of in Hho. rewrite Hd' in Hho. injection Hho as <-. simpl.
    by rewrite Hn. }
  destruct (solve_inputs_frame c hws HV) as (sks & Hsks & Hlen & Hframe).
  { eapply Forall_impl; [exact Hhws|]. simpl. intros hw Hhw.
    unfold handles_registered. apply Forall_forall. intros h Hh.
    rewrite Forall_forall in Hhw. apply Hhw. by apply Hhn. }
  exists c, sks. split_and!; [done|done| |done|done|].
  - simpl. rewrite list_elem_of_fmap. intros (d' & Heq & Hin).
    apply list_elem_of_filter in Hin as [[js Hjs] _].
    unfold state_handle_of in Heq. injection Heq as Heq. congruence.
  - eapply (Hframe sk (foldl addDof [] ptrs) p d); [done|done| |done].
    intros Hp.
    destruct (resolved_group sk names ptrs p HF Hp) as (name & d' & Hin & Hd' & Hn & _).
    apply Hnc. congruence.
Qed.

(** C8. [init] looks the description up under the value of the option
    [robot_description_parameter], which is [/robot_description] when the
    option is unset; when nothing is found under that key, [init] returns
    false, leaves the controller as it was, and the controller manager
    never runs the control loop; when a document is found there, [init]
    returns and the model it leaves is the parse of that document. *)
Theorem init_description_lookup robot n c hws :
  (n !! "robot_description_parameter" = None →
   robot_description_parameter n = "/robot_description") ∧
  (∀ key, n !! "robot_description_parameter" = Some (TypeString key) →
          robot_description_parameter n = key) ∧
  (getParam_string n (robot_description_parameter n) = None →
   init robot n c = Some (false, c) ∧
   controller_manager robot n hws = Some (false, [])) ∧
  (∀ doc, getParam_string n (robot_description_parameter n) = Some doc →
          ∃ ok c', init robot n c = Some (ok, c') ∧
                   skeleton_ c' = parseSkeletonString doc).
Proof.
  split_and!.
  - intros H. unfold robot_description_parameter, param_string, getParam_string.
    by rewrite H.
  - intros key H. unfold robot_description_parameter, param_string, getParam_string.
    by rewrite H.
  - intros H. split.
    + unfold init. by rewrite H.
    + apply controller_manager_refused with (c := GravityCompensationController_new).
      unfold init. by rewrite H.
  - intros doc H. destruct (init_total robot n c) as (ok & c' & Hinit & Hsk).
    exists ok, c'. split; [done|]. by rewrite H in Hsk.
Qed.

(** C9. [update] never reads the state-handle list: whatever that list
    holds, the models handed to the solve and the commands issued are the
    same.  After a successful [init], on every tick, a DOF outside the
    controlled group reaches the solve with the position, velocity and
    acceleration of the parsed model, whether or not a state handle was
    acquired for it. *)
Theorem state_handles_never_read robot n c hws :
  init robot n GravityCompensationController_new = Some (true, c) →
  Forall (λ hw, handles_registered hw (controlled_joint_handles_ c)) hws →
  ∃ doc sk grp sks,
    parseSkeletonString doc = Some sk ∧
    skeleton_ c = Some sk ∧ controlled_skeleton_ c = Some grp ∧
    solve_inputs c hws = Some sks ∧ length sks = length hws ∧
    (∀ l, solve_inputs (set_joint_state_handles l c) hws = Some sks ∧
          snd <$> run_ticks (set_joint_state_handles l c) hws
          = snd <$> run_ticks c hws) ∧
    (∀ p d, sk !! p = Some d → p ∉ grp →
            Forall (λ sk1, ∃ d1, sk1 !! p = Some d1 ∧ getName d1 = getName d ∧
                                 kinematic_state d1 = kinematic_state d) sks).
Proof.
  intros Hinit Hhws.
  destruct (init_validated _ _ _ Hinit) as [HV _].
  destruct (init_true_inv _ _ _ Hinit) as (doc & sk & names & H1 & H2 & H3 & H4 & H5).
  destruct (init_ok robot n doc sk names H1 H2 H3 H4 H5)
    as (ptrs & m & handles & HF & _ & Hm & Heq).
  rewrite Hinit in Heq. injection Heq as Hc.
  destruct (solve_inputs_frame c hws HV Hhws) as (sks & Hsks & Hlen & Hframe).
  exists doc, sk, (foldl addDof [] ptrs), sks.
  split_and!; [done|by rewrite Hc|by rewrite Hc|done|done| |].
  - intros l. split; [by rewrite solve_inputs_state_handles|].
    apply run_ticks_state_handles.
  - intros p d Hd Hp. eapply Hframe; [by rewrite Hc|by rewrite Hc|done|done].
Qed.

(** ** Further facts: hardware memory, repeated ticks, repeated names *)

Lemma setCommand_lookup hw h v name :
  effort_joint_interface (default hw (setCommand hw h v)) !! name
  = if decide (jh_name h = name)
    then (λ jd, mkJointData (jd_position jd) (jd_velocity jd) (jd_effort jd) v)
           <$> effort_joint_interface hw !! name
    else effort_joint_interface hw !! name.
Proof.
  unfold setCommand.
  destruct (effort_joint_interface hw !! jh_name h) as [jd|] eqn:E; simpl.
  - case_decide as Hn.
    + rewrite <-Hn, lookup_insert_eq, E. done.
    + by rewrite lookup_insert_ne.
  - case_decide as Hn; [|done]. by rewrite <-Hn, E.
Qed.

Lemma setCommand_state hw h v :
  joint_state_interface (default hw (setCommand hw h v)) = joint_state_interface hw.
Proof.
  unfold setCommand. by destruct (effort_joint_interface hw !! jh_name h).
Qed.

Lemma write_log_cons hw hc log :
  write_log hw (hc :: log) = write_log (default hw (setCommand hw hc.1 hc.2)) log.
Proof. reflexivity. Qed.

Lemma write_log_state hw log :
  joint_state_interface (write_log hw log) = joint_state_interface hw.
Proof.
  revert hw. induction log as [|hc log IH]; intros hw; [done|].
  by rewrite write_log_cons, IH, setCommand_state.
Qed.

Lemma write_log_sensed hw log name :
  jd_sensed <$> effort_joint_interface (write_log hw log) !! name
  = jd_sensed <$> effort_joint_interface hw !! name.
Proof.
  revert hw. induction log as [|hc log IH]; intros hw; [done|].
  rewrite write_log_cons, IH, setCommand_lookup.
  case_decide; [|done]. by destruct (effort_joint_interface hw !! name).
Qed.

Lemma write_log_other hw log name :
  name ∉ (λ hc, jh_name hc.1) <$> log →
  effort_joint_interface (write_log hw log) !! name = effort_joint_interface hw !! name.
Proof.
  revert hw. induction log as [|hc log IH]; intros hw Hn; [done|].
  rewrite fmap_cons in Hn. apply not_elem_of_cons in Hn as [Hne Hn].
  rewrite write_log_cons, IH by done. rewrite setCommand_lookup.
  by rewrite decide_False.
Qed.

(** The command slot of a joint holds the value of the writes to it, when
    these all agree. *)
Lemma write_log_command hw log name v :
  is_Some (effort_joint_interface hw !! name) →
  name ∈ (λ hc, jh_name hc.1) <$> log →
  (∀ hc, hc ∈ log → jh_name hc.1 = name → hc.2 = v) →
  jd_command <$> effort_joint_interface (write_log hw log) !! name = Some v.
Proof.
  revert hw. induction log as [|hc log IH]; intros hw Hreg Hin Hall.
  - by apply elem_of_nil in Hin.
  - rewrite write_log_cons.
    destruct (decide (name ∈ (λ hc, jh_name hc.1) <$> log)) as [Hlater|Hlater].
    + apply IH; [|done|].
      * rewrite setCommand_lookup. case_decide; [|done]. by apply fmap_is_Some.
      * intros hc' Hhc'. apply Hall. by right.
    + rewrite write_log_other by done. rewrite setCommand_lookup.
      rewrite fmap_cons in Hin. apply elem_of_cons in Hin as [Hhere|?]; [|done].
      rewrite decide_True by done. destruct Hreg as [jd Hjd]. rewrite Hjd. simpl.
      f_equal. apply Hall; [by left|done].
Qed.

(** The commands of a tick go to the controlled handles, in order. *)
Lemma commands_handles sk grp (handles : list JointHandle) log :
  mapM (command_of sk grp handles) (seq 0 (getNumDofs grp)) = Some log →
  length handles = length grp →
  log.*1 = handles.
Proof.
  intros Hm Hlen.
  assert (length log = length grp) as Hlog.
  { apply mapM_Some, Forall2_length in Hm. by rewrite length_seq in Hm. }
  apply list_eq. intros i. rewrite list_lookup_fmap.
  destruct (grp !! i) as [p|] eqn:Hp.
  - destruct (lookup_lt_is_Some_2 handles i) as [h Hh].
    { rewrite Hlen. by eapply lookup_lt_Some. }
    destruct (commands_lookup _ _ _ _ _ _ _ Hm Hp Hh) as (d & _ & Hi).
    by rewrite Hi, Hh.
  - apply lookup_ge_None in Hp.
    rewrite (lookup_ge_None_2 log) by lia.
    by rewrite (lookup_ge_None_2 handles) by lia.
Qed.

(** Any number of ticks on validated members: the loop completes, only the
    model changes, the names of its DOFs stay, and each tick commands the
    controlled handles in order. *)
Lemma run_ticks_spec c hws sk :
  validated c → skeleton_ c = Some sk →
  Forall (λ hw, handles_registered hw (controlled_joint_handles_ c)) hws →
  ∃ sk' logs,
    run_ticks c hws = Some (set_skeleton (Some sk') c, logs) ∧
    getName <$> sk' = getName <$> sk ∧
    validated (set_skeleton (Some sk') c) ∧
    length logs = length hws ∧
    Forall (λ log, log.*1 = controlled_joint_handles_ c) logs.
Proof.
  intros HV Hsk Hregs. revert c sk HV Hsk Hregs.
  induction hws as [|hw hws IH]; intros c sk HV Hsk Hregs.
  - exists sk, []. simpl. split_and!; [|done| |done|constructor].
    + f_equal. f_equal. destruct c; simpl in *. by rewrite Hsk.
    + assert (set_skeleton (Some sk) c = c) as ->; [|done].
      destruct c; simpl in *. by rewrite Hsk.
  - apply Forall_cons in Hregs as [Hreg Hregs].
    pose proof (validated_consistent _ _ HV Hreg) as Hc.
    destruct (update_spec c hw Hc) as (sk0 & grp & log & Hsk0 & Hgrp & _ & Hm & Hup).
    rewrite Hsk in Hsk0. injection Hsk0 as <-.
    destruct (update_validated c hw HV Hreg)
      as (sk0 & sk1 & hw' & log' & Hsk0 & Hsk1 & _ & Hup' & HV').
    rewrite Hsk in Hsk0. injection Hsk0 as <-. subst sk1.
    set (sk2 := computeInverseDynamics
                  (imap (synced hw (jh_name <$> controlled_joint_handles_ c) sk) sk)) in *.
    destruct (IH (set_skeleton (Some sk2) c) sk2 HV' eq_refl Hregs)
      as (sk' & logs & Hrun & Hnames & HV'' & Hlen & Hlogs).
    exists sk', (log :: logs). simpl. rewrite Hup. simpl. rewrite Hrun. simpl.
    split_and!; [done| |done|by rewrite Hlen|].
    + rewrite Hnames. unfold sk2.
      by rewrite computeInverseDynamics_names, imap_synced_names.
    + constructor; [|done].
      destruct Hc as (sk0 & grp0 & _ & Hgrp0 & _ & Hl & _).
      rewrite Hgrp in Hgrp0. injection Hgrp0 as <-.
      by eapply commands_handles.
Qed.

Lemma filter_all {A} (P : A → Prop) `{!∀ x, Decision (P x)} (l : list A) :
  Forall P l → filter P l = l.
Proof.
  induction 1 as [|x l Hx _ IH]; [done|].
  by rewrite filter_cons_True, IH.
Qed.

(** On validated members no lookup of the first loop fails. *)
Lemma validated_resolving c sk :
  validated c → skeleton_ c = Some sk →
  resolving_handles sk (controlled_joint_handles_ c) = controlled_joint_handles_ c.
Proof.
  intros (sk' & grp & Hsk' & _ & HV) Hsk. rewrite Hsk in Hsk'. injection Hsk' as <-.
  unfold resolving_handles. apply filter_all.
  apply Forall_forall. intros h Hh. apply list_elem_of_lookup in Hh as [i Hi].
  destruct (Forall2_lookup_r _ _ _ _ _ HV Hi) as (p & _ & d & _ & Hn & Hidx).
  rewrite Hn, Hidx. by eexists.
Qed.

Lemma emplace_mono k v m k' v' :
  m !! k' = Some v' → emplace k v m !! k' = Some v'.
Proof.
  intros H. unfold emplace. destruct (m !! k) eqn:E; [done|].
  rewrite lookup_insert_ne; [done|]. intros ->. congruence.
Qed.

(** The first loop of [init] never overwrites an entry of the map. *)
Lemma add_controlled_dofs_mono sk names grp m ok grp' m' k v :
  add_controlled_dofs sk names grp m = (ok, (grp', m')) →
  m !! k = Some v → m' !! k = Some v.
Proof.
  revert grp m. induction names as [|a names IH]; intros grp m; simpl.
  - by intros [= _ _ <-].
  - destruct (getDof sk a) as [[p d]|]; [|by intros [= _ _ <-]].
    intros H Hk. eapply IH; [done|]. by apply emplace_mono.
Qed.

(** The group that the first loop builds does not depend on the map. *)
Lemma add_controlled_dofs_group sk names grp m1 m2 :
  (add_controlled_dofs sk names grp m1).1 = (add_controlled_dofs sk names grp m2).1 ∧
  (add_controlled_dofs sk names grp m1).2.1 = (add_controlled_dofs sk names grp m2).2.1.
Proof.
  revert grp m1 m2. induction names as [|a names IH]; intros grp m1 m2; simpl; [done|].
  destruct (getDof sk a) as [[p d]|]; [|done]. apply IH.
Qed.

(** The first loop of [init] keeps the map in agreement with the group,
    and on completion the keys it added are the names of the list. *)
Lemma add_controlled_dofs_agrees sk names grp m ok grp' m' :
  add_controlled_dofs sk names grp m = (ok, (grp', m')) →
  map_agrees sk grp m →
  map_agrees sk grp' m' ∧
  (ok = true → ∀ name, is_Some (m' !! name) ↔ is_Some (m !! name) ∨ name ∈ names).
Proof.
  revert grp m. induction names as [|a names IH]; intros grp m; simpl.
  - intros [= <- <- <-] Hag. split; [done|]. intros _ name.
    rewrite elem_of_nil. split; [by left|by intros [?|?]].
  - destruct (getDof sk a) as [[p d]|] eqn:Ha.
    2:{ intros [= <- <- <-] Hag. split; [done|]. done. }
    apply getDof_Some in Ha as (Hd & Hn & Hidx).
    intros Hadd (Hnd & Hmap & Hgrp).
    assert (map_agrees sk (addDof grp p)
              (emplace (getName d) (getNumDofs (addDof grp p) - 1) m) ∧
            ∀ name, is_Some (emplace (getName d) (getNumDofs (addDof grp p) - 1) m !! name)
                    ↔ is_Some (m !! name) ∨ name = a) as [Hag Hkeys].
    { rewrite Hn. unfold emplace. destruct (m !! a) as [i|] eqn:Hma.
      - destruct (Hmap a i Hma) as (p' & Hi & Hidx').
        assert (p' = p) as -> by congruence.
        assert (p ∈ grp) as Hin by (by eapply list_elem_of_lookup_2).
        unfold addDof. rewrite decide_True by done.
        split; [done|]. intros name. split; [by left|].
        intros [?| ->]; [done|by rewrite Hma].
      - assert (p ∉ grp) as Hnin.
        { intros Hin. destruct (Hgrp p Hin) as (name & Hsome & Hidx').
          rewrite (dof_index_inj _ _ _ _ Hidx' Hidx), Hma in Hsome. by destruct Hsome. }
        unfold addDof, getNumDofs. rewrite decide_False by done.
        rewrite length_app. simpl.
        replace (length grp + 1 - 1) with (length grp) by lia.
        split; [split_and!|].
        + apply NoDup_app. split_and!; [done| |apply NoDup_singleton].
          intros x Hx. rewrite list_elem_of_singleton. by intros ->.
        + intros name i. destruct (decide (a = name)) as [<-|Hne].
          * rewrite lookup_insert_eq. intros [= <-]. exists p. split; [|done].
            by rewrite list_lookup_middle.
          * rewrite lookup_insert_ne by done. intros Hi.
            destruct (Hmap name i Hi) as (q & Hq & Hidx'). exists q. split; [|done].
            by apply lookup_app_l_Some.
        + intros q Hq. apply elem_of_app in Hq as [Hq|Hq].
          * destruct (Hgrp q Hq) as (name & Hsome & Hidx'). exists name. split; [|done].
            destruct (decide (a = name)) as [<-|Hne].
            -- by rewrite lookup_insert_eq.
            -- by rewrite lookup_insert_ne.
          * apply list_elem_of_singleton in Hq as ->. exists a.
            by rewrite lookup_insert_eq.
        + intros name. destruct (decide (a = name)) as [<-|Hne].
          * rewrite lookup_insert_eq. split; [by right|by eexists].
          * rewrite lookup_insert_ne by done. split; [by left|].
            intros [?|?]; [done|congruence]. }
    destruct (IH _ _ Hadd Hag) as [Hag' Hkeys'].
    split; [done|]. intros Hok name. rewrite (Hkeys' Hok), Hkeys, elem_of_cons.
    split; [intros [[?|?]|?]|intros [?|[?|?]]]; eauto.
Qed.

(** ** Further properties of initialisation and of the control cycle *)

(** X1. When the description is found but the parser returns no model,
    [init] returns false with a null model, whatever model the controller
    held before, touches no other member, and the controller manager never
    runs the control loop. *)
Theorem init_fails_on_unparsable_description robot n c doc hws :
  getParam_string n (robot_description_parameter n) = Some doc →
  parseSkeletonString doc = None →
  init robot n c = Some (false, set_skeleton None c) ∧
  controller_manager robot n hws = Some (false, []).
Proof.
  intros Hdoc Hparse. split.
  - unfold init. rewrite Hdoc. simpl. by rewrite Hparse.
  - apply controller_manager_refused
      with (c := set_skeleton None GravityCompensationController_new).
    unfold init. rewrite Hdoc. simpl. by rewrite Hparse.
Qed.

(** X2. When the model is loaded but the [joints] parameter is absent, is
    not an array, or has an entry that is not a string, [init] returns
    false: the model stays loaded in the controller, the group, the map
    and the handle lists are untouched, and the controller manager never
    runs the control loop. *)
Theorem init_fails_without_joint_list robot n c doc sk hws :
  getParam_string n (robot_description_parameter n) = Some doc →
  parseSkeletonString doc = Some sk →
  getParam_strings n "joints" = None →
  init robot n c = Some (false, set_skeleton (Some sk) c) ∧
  controller_manager robot n hws = Some (false, []).
Proof.
  intros Hdoc Hparse Hj. split.
  - unfold init. rewrite Hdoc. simpl. by rewrite Hparse, Hj.
  - apply controller_manager_refused
      with (c := set_skeleton (Some sk) GravityCompensationController_new).
    unfold init. rewrite Hdoc. simpl. by rewrite Hparse, Hj.
Qed.

(** X3. [init] on a fresh controller returns true exactly when the
    description is found and parses, the joint list is found, every name
    of the list resolves in the model, and every name of the list has a
    command handle.  The state interface plays no part. *)
Theorem init_succeeds_iff robot n :
  (∃ c, init robot n GravityCompensationController_new = Some (true, c)) ↔
  ∃ doc sk names,
    getParam_string n (robot_description_parameter n) = Some doc ∧
    parseSkeletonString doc = Some sk ∧
    getParam_strings n "joints" = Some names ∧
    Forall (λ name, is_Some (getDof sk name)) names ∧
    Forall (λ name, is_Some (effort_joint_interface robot !! name)) names.
Proof.
  split.
  - intros [c Hinit]. by eapply init_true_inv.
  - intros (doc & sk & names & H1 & H2 & H3 & H4 & H5).
    destruct (init_ok robot n doc sk names H1 H2 H3 H4 H5) as (? & ? & ? & _ & _ & _ & Hinit).
    eauto.
Qed.

(** X4. After a successful [init], also when the joint list repeats names:
    the controlled group holds no DOF twice, its DOFs are those the names
    of the list resolve to, the keys of the name-to-index map are the
    names of the list, and the map sends a name to [i] exactly when the
    i-th DOF of the group is the one the name resolves to. *)
Theorem init_map_agrees_with_group robot n c names :
  init robot n GravityCompensationController_new = Some (true, c) →
  getParam_strings n "joints" = Some names →
  ∃ sk grp,
    skeleton_ c = Some sk ∧ controlled_skeleton_ c = Some grp ∧
    NoDup grp ∧
    (∀ p, p ∈ grp ↔ ∃ name, name ∈ names ∧ dof_index sk name = Some p) ∧
    (∀ name, is_Some (controlled_joint_map_ c !! name) ↔ name ∈ names) ∧
    (∀ name i, controlled_joint_map_ c !! name = Some i
               ↔ ∃ p, grp !! i = Some p ∧ dof_index sk name = Some p).
Proof.
  intros Hinit Hnames.
  destruct (init_true_inv _ _ _ Hinit) as (doc & sk & names' & H1 & H2 & H3 & H4 & H5).
  rewrite Hnames in H3. injection H3 as <-.
  destruct (init_ok robot n doc sk names H1 H2 Hnames H4 H5)
    as (ptrs & m & handles & HF & Hadd & _ & Heq).
  rewrite Hinit in Heq. injection Heq as ->.
  destruct (add_controlled_dofs_agrees _ _ _ _ _ _ _ Hadd) as [(Hnd & Hmap & Hgrp) Hkeys].
  { split_and!; [constructor| |].
    - intros name i H. by rewrite lookup_empty in H.
    - intros p H. by apply elem_of_nil in H. }
  assert (∀ name, is_Some (m !! name) ↔ name ∈ names) as Hkeys'.
  { intros name. rewrite (Hkeys eq_refl). rewrite lookup_empty. split.
    - intros [[? ?]|?]; done.
    - by right. }
  exists sk, (foldl addDof [] ptrs). simpl. split_and!; [done|done|done| |done|].
  - intros p. rewrite elem_of_foldl_addDof. split.
    + intros [H|H]; [by apply elem_of_nil in H|].
      apply list_elem_of_lookup in H as [i Hi].
      destruct (Forall2_lookup_r _ _ _ _ _ HF Hi) as (name & Hname & Hidx).
      exists name. split; [by eapply list_elem_of_lookup_2|done].
    + intros (name & Hname & Hidx). right.
      apply list_elem_of_lookup in Hname as [i Hi].
      destruct (Forall2_lookup_l _ _ _ _ _ HF Hi) as (q & Hq & Hidx').
      assert (q = p) as -> by congruence. by eapply list_elem_of_lookup_2.
  - intros name i. split; [apply Hmap|].
    intros (p & Hp & Hidx).
    destruct (Hgrp p) as (name' & [j Hj] & Hidx'); [by eapply list_elem_of_lookup_2|].
    rewrite (dof_index_inj _ _ _ _ Hidx' Hidx) in Hj.
    destruct (Hmap name j Hj) as (q & Hq & Hidx'').
    assert (q = p) as -> by congruence.
    by rewrite (NoDup_lookup _ _ _ _ Hnd Hp Hq).
Qed.

(** X5. A tick writes command slots and nothing else in the hardware
    memory: the state interface is unchanged, every joint of the effort
    interface keeps its position, velocity and effort readings, and a
    joint that no controlled handle names keeps its command as well. *)
Theorem update_writes_commands_only c hw :
  consistent c hw →
  ∃ c' hw' log,
    update c hw = Some (c', hw', log) ∧
    joint_state_interface hw' = joint_state_interface hw ∧
    (∀ name, jd_sensed <$> effort_joint_interface hw' !! name
             = jd_sensed <$> effort_joint_interface hw !! name) ∧
    (∀ name, name ∉ jh_name <$> controlled_joint_handles_ c →
             effort_joint_interface hw' !! name = effort_joint_interface hw !! name).
Proof.
  intros Hc. destruct (update_spec c hw Hc) as (sk & grp & log & Hsk & Hgrp & _ & Hm & Hup).
  eexists _, _, log. split; [exact Hup|].
  split_and!; [apply write_log_state|intros; apply write_log_sensed|].
  intros name Hname. apply write_log_other.
  destruct Hc as (sk0 & grp0 & _ & Hgrp0 & _ & Hlen & _).
  rewrite Hgrp in Hgrp0. injection Hgrp0 as <-.
  rewrite <-(commands_handles _ _ _ _ Hm Hlen) in Hname.
  by rewrite <-list_fmap_compose in Hname.
Qed.

(** X6. After a tick on validated members, the command slot of every
    controlled joint holds the generalized force that the solve computed
    for the DOF of that joint. *)
Theorem update_command_slots c hw grp :
  validated c → handles_registered hw (controlled_joint_handles_ c) →
  controlled_skeleton_ c = Some grp →
  ∃ sk1 c' hw' log,
    model_before_solve c hw = Some sk1 ∧
    update c hw = Some (c', hw', log) ∧
    ∀ i p h,
      grp !! i = Some p → controlled_joint_handles_ c !! i = Some h →
      jd_command <$> effort_joint_interface hw' !! jh_name h
      = Some (inverseDynamics sk1 p).
Proof.
  intros HV Hreg Hgrp.
  pose proof (validated_consistent _ _ HV Hreg) as Hc.
  destruct (update_spec c hw Hc) as (sk & grp' & log & Hsk & Hgrp' & H1 & Hm & Hup).
  rewrite Hgrp in Hgrp'. injection Hgrp' as <-.
  eexists _, _, _, log. split_and!; [exact H1|exact Hup|].
  intros i p h Hp Hh.
  destruct HV as (sk' & grp' & Hsk' & Hgrp' & HV).
  rewrite Hsk in Hsk'. rewrite Hgrp in Hgrp'.
  injection Hsk' as <-. injection Hgrp' as <-.
  assert (length (controlled_joint_handles_ c) = length grp) as Hlen
    by (symmetry; by eapply Forall2_length).
  pose proof (commands_handles _ _ _ _ Hm Hlen) as Hfst.
  apply write_log_command.
  - unfold handles_registered in Hreg. rewrite Forall_forall in Hreg.
    apply Hreg. by eapply list_elem_of_lookup_2.
  - change ((λ hc : JointHandle * double, jh_name hc.1) <$> log)
      with ((jh_name ∘ fst) <$> log).
    rewrite (list_fmap_compose fst jh_name), Hfst.
    apply list_elem_of_fmap. exists h. split; [done|by eapply list_elem_of_lookup_2].
  - intros [h' v] Hin Hname. simpl in *.
    apply list_elem_of_lookup in Hin as [j Hj].
    assert (controlled_joint_handles_ c !! j = Some h') as Hh'.
    { rewrite <-Hfst, list_lookup_fmap, Hj. done. }
    destruct (Forall2_lookup_r _ _ _ _ _ HV Hh') as (q & Hq & d' & Hd' & Hn' & Hidx').
    destruct (Forall2_lookup_r _ _ _ _ _ HV Hh) as (p' & Hp' & d & Hd & Hn & Hidx).
    assert (p' = p) as -> by congruence.
    assert (q = p) as -> by congruence.
    destruct (commands_lookup _ _ _ _ _ _ _ Hm Hq Hh') as (d2 & Hd2 & Hlog).
    rewrite Hj in Hlog. injection Hlog as ->.
    rewrite computeInverseDynamics_lookup in Hd2.
    destruct (imap _ _ !! p); simpl in Hd2; [|done]. by injection Hd2 as <-.
Qed.

(** X7. [init] does not clear the members it fills.  Called on a
    controller that already holds handles and map entries, with a
    configuration that has no fatal condition, it returns true with the
    model and the group of a fresh initialisation, but the new handles are
    appended after those already held, and no entry already in the map is
    overwritten. *)
Theorem init_accumulates robot n c doc sk names :
  getParam_string n (robot_description_parameter n) = Some doc →
  parseSkeletonString doc = Some sk →
  getParam_strings n "joints" = Some names →
  Forall (λ name, is_Some (getDof sk name)) names →
  Forall (λ name, is_Some (effort_joint_interface robot !! name)) names →
  ∃ c0 c',
    init robot n GravityCompensationController_new = Some (true, c0) ∧
    init robot n c = Some (true, c') ∧
    skeleton_ c' = skeleton_ c0 ∧
    controlled_skeleton_ c' = controlled_skeleton_ c0 ∧
    controlled_joint_handles_ c'
    = controlled_joint_handles_ c ++ controlled_joint_handles_ c0 ∧
    joint_state_handles_ c' = joint_state_handles_ c ++ joint_state_handles_ c0 ∧
    (∀ name i, controlled_joint_map_ c !! name = Some i →
               controlled_joint_map_ c' !! name = Some i).
Proof.
  intros Hdoc Hparse Hnames Hres Heff.
  destruct (init_ok robot n doc sk names Hdoc Hparse Hnames Hres Heff)
    as (ptrs & m0 & handles & HF & Hadd0 & Hm & Hinit0).
  destruct (add_controlled_dofs sk names [] (controlled_joint_map_ c))
    as [ok [grp m]] eqn:Hadd.
  destruct (add_controlled_dofs_group sk names [] (controlled_joint_map_ c) ∅) as [Hok Hg].
  rewrite Hadd, Hadd0 in Hok, Hg. simpl in Hok, Hg. subst ok grp.
  destruct (get_controlled_handles_ok (effort_joint_interface robot) sk
              (foldl addDof [] ptrs) (controlled_joint_handles_ c))
    as (handles' & Hm' & Hget).
  { apply Forall_forall. intros p Hp.
    destruct (resolved_group _ _ _ _ HF Hp) as (name & d & Hin & Hd & Hn & _).
    exists d. split; [done|]. rewrite Hn.
    rewrite Forall_forall in Heff. by apply Heff. }
  rewrite Hm in Hm'. injection Hm' as <-.
  eexists _, _. split; [exact Hinit0|]. split.
  - unfold init. rewrite Hdoc. simpl. rewrite Hparse, Hnames. simpl.
    rewrite Hadd. simpl. rewrite Hget. simpl. rewrite get_state_handles_spec.
    reflexivity.
  - simpl. split_and!; [done..|].
    intros name i Hi. by eapply add_controlled_dofs_mono.
Qed.

(** X8. With a configuration that has no fatal condition and hardware
    that keeps the controlled joints registered, the controller manager
    runs every tick to completion, and each tick commands exactly the
    controlled handles, once each, in the order [init] acquired them. *)
Theorem controller_manager_runs robot n doc sk names hws :
  getParam_string n (robot_description_parameter n) = Some doc →
  parseSkeletonString doc = Some sk →
  getParam_strings n "joints" = Some names →
  Forall (λ name, is_Some (getDof sk name)) names →
  Forall (λ name, is_Some (effort_joint_interface robot !! name)) names →
  Forall (λ hw, Forall (λ name, is_Some (effort_joint_interface hw !! name)) names) hws →
  ∃ c logs,
    init robot n GravityCompensationController_new = Some (true, c) ∧
    controller_manager robot n hws = Some (true, logs) ∧
    length logs = length hws ∧
    Forall (λ log, log.*1 = controlled_joint_handles_ c) logs.
Proof.
  intros Hdoc Hparse Hnames Hres Heff Hhws.
  destruct (init_ok robot n doc sk names Hdoc Hparse Hnames Hres Heff)
    as (ptrs & m & handles & HF & Hadd & Hm & Hinit).
  destruct (init_validated _ _ _ Hinit) as [HV _].
  set (c := mkController _ _ _ _ _) in *.
  assert (∀ h, h ∈ handles → jh_name h ∈ names) as Hhn.
  { intros h Hh. apply mapM_Some in Hm. apply list_elem_of_lookup in Hh as [i Hi].
    destruct (Forall2_lookup_r _ _ _ _ _ Hm Hi) as (q & Hq & Hho).
    destruct (resolved_group sk names ptrs q HF) as (name & d' & Hin & Hd' & Hn & _);
      [by eapply list_elem_of_lookup_2|].
    unfold handle_of in Hho. rewrite Hd' in Hho. injection Hho as <-. simpl.
    by rewrite Hn. }
  destruct (run_ticks_spec c hws sk HV eq_refl) as (sk' & logs & Hrun & _ & _ & Hlen & Hlogs).
  { eapply Forall_impl; [exact Hhws|]. simpl. intros hw Hhw.
    unfold handles_registered. apply Forall_forall. intros h Hh.
    rewrite Forall_forall in Hhw. apply Hhw. by apply Hhn. }
  exists c, logs. split_and!; [done| |done|done].
  unfold controller_manager. rewrite Hinit, Hrun. done.
Qed.

(** X9. After a successful [init] and any number of ticks, the controller
    differs from the one [init] left only in its model, the model has the
    same DOF names in the same order, and every controlled handle still
    resolves: the skipping branch of the first loop of [update] is never
    taken. *)
Theorem lookup_never_fails_after_init robot n c hws :
  init robot n GravityCompensationController_new = Some (true, c) →
  Forall (λ hw, handles_registered hw (controlled_joint_handles_ c)) hws →
  ∃ sk sk' logs,
    skeleton_ c = Some sk ∧
    run_ticks c hws = Some (set_skeleton (Some sk') c, logs) ∧
    getName <$> sk' = getName <$> sk ∧
    resolving_handles sk' (controlled_joint_handles_ c) = controlled_joint_handles_ c.
Proof.
  intros Hinit Hhws.
  destruct (init_validated _ _ _ Hinit) as [HV _].
  pose proof HV as (sk & grp & Hsk & _ & _).
  destruct (run_ticks_spec c hws sk HV Hsk Hhws) as (sk' & logs & Hrun & Hnames & HV' & _ & _).
  exists sk, sk', logs. split_and!; [done..|].
  by apply (validated_resolving (set_skeleton (Some sk') c) sk' HV').
Qed.

(** X10. After a successful [init] and any number of ticks, the next tick
    hands every DOF of the controlled group to the solve with the
    position and the velocity that its own handle reports at that tick and
    with zero acceleration, whatever the earlier ticks wrote. *)
Theorem controlled_dofs_synchronised_every_tick robot n c hws hw :
  init robot n GravityCompensationController_new = Some (true, c) →
  Forall (λ hw, handles_registered hw (controlled_joint_handles_ c)) hws →
  handles_registered hw (controlled_joint_handles_ c) →
  ∃ grp c' logs sk1,
    controlled_skeleton_ c = Some grp ∧
    run_ticks c hws = Some (c', logs) ∧
    model_before_solve c' hw = Some sk1 ∧
    ∀ i p h,
      grp !! i = Some p → controlled_joint_handles_ c !! i = Some h →
      ∃ d, sk1 !! p = Some d ∧ getName d = jh_name h ∧
           getPosition hw h = Some (dof_position d) ∧
           getVelocity hw h = Some (dof_velocity d) ∧
           dof_acceleration d = 0%float.
Proof.
  intros Hinit Hhws Hreg.
  destruct (init_validated _ _ _ Hinit) as [HV _].
  pose proof HV as (sk & grp & Hsk & Hgrp & _).
  destruct (run_ticks_spec c hws sk HV Hsk Hhws) as (sk' & logs & Hrun & _ & HV' & _ & _).
  set (c' := set_skeleton (Some sk') c) in *.
  pose proof HV' as (sk0 & grp0 & Hsk0 & Hgrp0 & HF).
  simpl in Hsk0, Hgrp0. rewrite Hgrp in Hgrp0.
  injection Hsk0 as <-. injection Hgrp0 as <-.
  assert (model_before_solve c' hw
          = Some (imap (synced hw (jh_name <$> controlled_joint_handles_ c) sk') sk')) as H1.
  { unfold model_before_solve. simpl. by apply read_joint_states_spec. }
  eexists grp, c', logs, _. split_and!; [done|done|exact H1|].
  intros i p h Hp Hh.
  destruct (Forall2_lookup_lr _ _ _ _ _ _ HF Hp Hh) as (d & Hd & Hn & Hidx).
  destruct (validated_zero_acceleration c' hw sk' grp p d HV' Hreg eq_refl Hgrp
              ltac:(by eapply list_elem_of_lookup_2) Hd) as (sk1 & H1' & Hsync & Hacc).
  rewrite H1 in H1'. injection H1' as <-.
  assert (is_Some (effort_joint_interface hw !! getName d)) as Hsome.
  { unfold handles_registered in Hreg. rewrite Forall_forall in Hreg.
    rewrite <-Hn. apply Hreg. by eapply list_elem_of_lookup_2. }
  destruct (sync_dof_registered hw d Hsome) as (_ & Hname & _ & Hq & Hdq).
  assert (h = mkJointHandle (getName d)) as -> by (destruct h; simpl in *; congruence).
  exists (sync_dof hw d). split_and!; [done|by rewrite Hname|done|done|done].
Qed.

(** X11. A tick reads nothing from the hardware but the positions and the
    velocities of the controlled handles: two hardware memories that agree
    on these lead to the same model before the solve and to the same
    commands, whatever their efforts, their command slots and their other
    joints hold. *)
Theorem update_reads_position_and_velocity_only c hw1 hw2 :
  consistent c hw1 → consistent c hw2 →
  Forall (λ h, getPosition hw1 h = getPosition hw2 h ∧
               getVelocity hw1 h = getVelocity hw2 h) (controlled_joint_handles_ c) →
  ∃ sk1 c' hw1' hw2' log,
    model_before_solve c hw1 = Some sk1 ∧ model_before_solve c hw2 = Some sk1 ∧
    update c hw1 = Some (c', hw1', log) ∧ update c hw2 = Some (c', hw2', log).
Proof.
  intros Hc1 Hc2 Hagree.
  destruct (update_spec c hw1 Hc1) as (sk & grp & log1 & Hsk & Hgrp & H1 & Hm1 & Hup1).
  destruct (update_spec c hw2 Hc2) as (sk' & grp' & log2 & Hsk' & Hgrp' & H2 & Hm2 & Hup2).
  rewrite Hsk in Hsk'. rewrite Hgrp in Hgrp'.
  injection Hsk' as <-. injection Hgrp' as <-.
  assert (imap (synced hw2 (jh_name <$> controlled_joint_handles_ c) sk) sk
          = imap (synced hw1 (jh_name <$> controlled_joint_handles_ c) sk) sk) as Heq.
  { apply list_eq. intros i. rewrite !list_lookup_imap.
    destruct (sk !! i) as [d|]; simpl; [|done]. f_equal.
    unfold synced. case_decide as Hd; [|done]. destruct Hd as [Hin _].
    apply list_elem_of_fmap in Hin as (h & Hn & Hh).
    rewrite Forall_forall in Hagree. destruct (Hagree h Hh) as [Hq Hdq].
    unfold getPosition, getVelocity in Hq, Hdq. rewrite <-Hn in Hq, Hdq.
    unfold sync_dof.
    destruct (effort_joint_interface hw1 !! getName d) as [jd1|],
             (effort_joint_interface hw2 !! getName d) as [jd2|];
      simpl in Hq, Hdq; try done.
    injection Hq as Hq. injection Hdq as Hdq. by rewrite Hq, Hdq. }
  cbv zeta in H2, Hm2, Hup2. rewrite Heq in H2, Hm2, Hup2.
  cbv zeta in Hm1. rewrite Hm1 in Hm2. injection Hm2 as <-.
  eexists _, _, _, _, log1. split_and!; [exact H1|exact H2|exact Hup1|exact Hup2].
Qed.

End Controller.

(** ** The scenarios *)

Import Scenario.

(** Evidence on concrete data is computed. *)
Ltac computed :=
  repeat first
    [ done
    | split
    | apply Forall_nil_2
    | apply Forall_cons_2
    | apply NoDup_nil_2
    | apply NoDup_cons_2
    | (eexists; vm_compute; reflexivity)
    | (vm_compute; reflexivity)
    | (vm_compute; lia) ].

Lemma ready_consistent : consistent ready sensed.
Proof. exists arm, [0; 1]. computed. Qed.

Lemma elbow_renamed_consistent : consistent elbow_renamed sensed.
Proof. eexists _, [0; 1]. split; [reflexivity|]. computed. Qed.

Lemma init_valid :
  init parse robot valid GravityCompensationController_new = Some (true, ready).
Proof. vm_compute. reflexivity. Qed.

(** At the sensed state, the shoulder reaches the solve at 0.25 rad and
    0.125 rad/s with zero acceleration. *)
Lemma update_zeroes_acceleration_witness :
  consistent ready sensed ∧
  ∃ sk1 d, model_before_solve ready sensed = Some sk1 ∧
           sk1 !! 0 = Some d ∧ getName d = "shoulder" ∧
           dof_acceleration d = 0%float ∧
           dof_position d = 0.25%float ∧ dof_velocity d = 0.125%float.
Proof.
  split; [exact ready_consistent|].
  destruct (update_zeroes_acceleration dynamics ready sensed ready_consistent)
    as (sk & sk1 & c' & hw' & log & Hsk & H1 & _ & _ & Hall).
  injection Hsk as <-.
  destruct (Hall (mkJointHandle "shoulder") 0 (resting "shoulder"))
    as (d & Hd & Hn & Ha & Hq & Hdq).
  { apply elem_of_cons. by left. }
  { vm_compute. reflexivity. }
  exists sk1, d. vm_compute in Hq, Hdq.
  injection Hq as Hq. injection Hdq as Hdq. by split_and!.
Defined.

(** At the sensed state, the two commands are the forces of the stand-in
    dynamics, shoulder first. *)
Lemma update_commands_in_order_witness :
  consistent ready sensed ∧
  ∃ c' hw', update dynamics ready sensed
            = Some (c', hw', [(mkJointHandle "shoulder", 2%float);
                              (mkJointHandle "elbow", (-4)%float)]).
Proof.
  split; [exact ready_consistent|].
  destruct (update_commands_in_order dynamics ready sensed ready_consistent)
    as (sk1 & grp & c' & hw' & log & _ & _ & Hup & _).
  exists c', hw'. rewrite Hup. vm_compute in Hup. injection Hup as _ _ <-.
  reflexivity.
Defined.

(** With the elbow renamed, the tick still completes, with two commands. *)
Lemma update_skips_unresolved_witness :
  consistent elbow_renamed sensed ∧
  (mkJointHandle "elbow" ∈ controlled_joint_handles_ elbow_renamed) ∧
  (∀ sk, skeleton_ elbow_renamed = Some sk → getDof sk "elbow" = None) ∧
  ∃ c' hw' log, update dynamics elbow_renamed sensed = Some (c', hw', log) ∧
                length log = 2 ∧
                controlled_joint_handles_ c' = controlled_joint_handles_ elbow_renamed.
Proof.
  assert (mkJointHandle "elbow" ∈ controlled_joint_handles_ elbow_renamed) as Hin.
  { apply elem_of_cons. right. apply elem_of_cons. by left. }
  assert (∀ sk, skeleton_ elbow_renamed = Some sk → getDof sk "elbow" = None) as Hnone.
  { intros sk [= <-]. vm_compute. reflexivity. }
  split_and!; [exact elbow_renamed_consistent|exact Hin|exact Hnone|].
  destruct (update_skips_unresolved dynamics elbow_renamed sensed (mkJointHandle "elbow")
              elbow_renamed_consistent Hin Hnone)
    as (sk & sk1 & grp & c' & hw' & log & _ & Hgrp & _ & Hup & _ & _ & _ & Hlen & Hh & _).
  injection Hgrp as <-. exists c', hw', log. by split_and!.
Defined.

(** With the elbow renamed, the elbow handle is still commanded, with the
    force of the forearm as the last tick left it. *)
Lemma update_commands_unresolved_witness :
  consistent elbow_renamed sensed ∧
  getDof [resting "shoulder"; forearm; resting "wrist"] "elbow" = None ∧
  ∃ sk1 c' hw' log,
    model_before_solve elbow_renamed sensed = Some sk1 ∧
    sk1 !! 1 = Some forearm ∧
    update dynamics elbow_renamed sensed = Some (c', hw', log) ∧
    log !! 1 = Some (mkJointHandle "elbow", 3.75%float).
Proof.
  assert (getDof [resting "shoulder"; forearm; resting "wrist"] "elbow" = None) as Hnone
    by (vm_compute; reflexivity).
  split_and!; [exact elbow_renamed_consistent|exact Hnone|].
  destruct (update_commands_unresolved dynamics elbow_renamed sensed
              [resting "shoulder"; forearm; resting "wrist"] [0; 1] 1
              (mkJointHandle "elbow") 1 forearm elbow_renamed_consistent
              eq_refl eq_refl eq_refl eq_refl eq_refl Hnone)
    as (sk1 & c' & hw' & log & H1 & Hup & Hlog & _ & Hstale).
  exists sk1, c', hw', log. split_and!; [done| |done|].
  - apply Hstale. vm_compute. intros H.
    repeat (apply elem_of_cons in H as [H|H]; [discriminate|]).
    by apply elem_of_nil in H.
  - rewrite Hlog. vm_compute in H1. injection H1 as <-. vm_compute. reflexivity.
Defined.

(** The configured list [shoulder; elbow] yields the controlled order
    [shoulder; elbow]. *)
Lemma init_succeeds_in_list_order_witness :
  getParam_string valid (robot_description_parameter valid) = Some "<robot name='arm'/>" ∧
  parse "<robot name='arm'/>" = Some arm ∧
  getParam_strings valid "joints" = Some ["shoulder"; "elbow"] ∧
  Forall (λ name, is_Some (getDof arm name)) ["shoulder"; "elbow"] ∧
  Forall (λ name, is_Some (effort_joint_interface robot !! name)) ["shoulder"; "elbow"] ∧
  NoDup ["shoulder"; "elbow"] ∧
  init parse robot valid GravityCompensationController_new = Some (true, ready) ∧
  ordered_as ["shoulder"; "elbow"] ready.
Proof.
  assert (Forall (λ name, is_Some (getDof arm name)) ["shoulder"; "elbow"]) as Hres
    by computed.
  assert (Forall (λ name, is_Some (effort_joint_interface robot !! name))
            ["shoulder"; "elbow"]) as Heff by computed.
  assert (NoDup ["shoulder"; "elbow"]) as Hnd.
  { apply NoDup_cons_2; [|apply NoDup_singleton].
    intros H. apply list_elem_of_singleton in H. discriminate. }
  split_and!; [vm_compute; reflexivity..|exact Hres|exact Heff|exact Hnd| |].
  - exact init_valid.
  - destruct (init_succeeds_in_list_order parse robot valid "<robot name='arm'/>" arm
                ["shoulder"; "elbow"] eq_refl eq_refl eq_refl Hres Heff Hnd)
      as (c & Hinit & _ & Hord & _).
    rewrite init_valid in Hinit. injection Hinit as <-. exact Hord.
Defined.

(** What [init] builds from the joint list [shoulder; shoulder]: the
    second [addDof] finds the shoulder in the group and the second
    [emplace] finds its name in the map, so one DOF is controlled. *)
Example init_shoulder_twice :
  init parse robot shoulder_twice GravityCompensationController_new
  = Some (true, mkController (Some arm) (Some [0]) (<["shoulder" := 0]> ∅)
                  [mkJointHandle "shoulder"] [mkJointStateHandle "wrist"]).
Proof. vm_compute. reflexivity. Qed.

(** C3 as stated fails when a name is repeated: with the joint list
    [shoulder; shoulder] every condition of C3 holds and [init]
    returns true, but the controlled order is [shoulder], not the list,
    and the map has no entry for the second position. *)
Lemma init_repeated_name_counterexample :
  getParam_string shoulder_twice (robot_description_parameter shoulder_twice)
  = Some "<robot name='arm'/>" ∧
  parse "<robot name='arm'/>" = Some arm ∧
  getParam_strings shoulder_twice "joints" = Some ["shoulder"; "shoulder"] ∧
  Forall (λ name, is_Some (getDof arm name)) ["shoulder"; "shoulder"] ∧
  Forall (λ name, is_Some (effort_joint_interface robot !! name)) ["shoulder"; "shoulder"] ∧
  ∃ c, init parse robot shoulder_twice GravityCompensationController_new = Some (true, c) ∧
       controlled_names c = Some ["shoulder"] ∧
       controlled_joint_map_ c !! "shoulder" = Some 0 ∧
       ¬ ordered_as ["shoulder"; "shoulder"] c.
Proof.
  split_and!; [vm_compute; reflexivity..|computed|computed|].
  eexists. split; [exact init_shoulder_twice|].
  split_and!; [vm_compute; reflexivity..|].
  intros [Hnames _]. vm_compute in Hnames. discriminate.
Qed.

(** A joint list that names a gripper the arm lacks: [init] stops there,
    with only the shoulder in the group and no handle. *)
Lemma init_fails_on_unresolved_name_witness :
  getParam_string with_gripper (robot_description_parameter with_gripper)
  = Some "<robot name='arm'/>" ∧
  parse "<robot name='arm'/>" = Some arm ∧
  getParam_strings with_gripper "joints" = Some ["shoulder"; "gripper"; "elbow"] ∧
  Exists (λ name, getDof arm name = None) ["shoulder"; "gripper"; "elbow"] ∧
  ∃ c, init parse robot with_gripper GravityCompensationController_new = Some (false, c) ∧
       controlled_skeleton_ c = Some [0] ∧
       controlled_joint_handles_ c = [] ∧ joint_state_handles_ c = [] ∧
       controller_manager parse dynamics robot with_gripper [sensed; sensed]
       = Some (false, []).
Proof.
  assert (Exists (λ name, getDof arm name = None) ["shoulder"; "gripper"; "elbow"]) as Hex.
  { apply Exists_cons_tl, Exists_cons_hd. vm_compute. reflexivity. }
  split_and!; [vm_compute; reflexivity..|exact Hex|].
  destruct (init_fails_on_unresolved_name parse dynamics robot with_gripper
              "<robot name='arm'/>" arm ["shoulder"; "gripper"; "elbow"] [sensed; sensed]
              eq_refl eq_refl eq_refl Hex)
    as (pre & bad & post & ptrs & m & _ & _ & _ & _ & _ & Hcm).
  exists (mkController (Some arm) (Some [0]) (<["shoulder" := 0]> ∅) [] []).
  split_and!; [vm_compute; reflexivity|reflexivity..|exact Hcm].
Defined.

(** Hardware that cannot command the elbow: [init] stops at the elbow,
    holding the shoulder handle only. *)
Lemma init_fails_on_missing_command_handle_witness :
  getParam_string valid (robot_description_parameter valid) = Some "<robot name='arm'/>" ∧
  parse "<robot name='arm'/>" = Some arm ∧
  getParam_strings valid "joints" = Some ["shoulder"; "elbow"] ∧
  Forall (λ name, is_Some (getDof arm name)) ["shoulder"; "elbow"] ∧
  Exists (λ name, effort_joint_interface robot_without_elbow !! name = None)
         ["shoulder"; "elbow"] ∧
  ∃ c, init parse robot_without_elbow valid GravityCompensationController_new
       = Some (false, c) ∧
       controlled_joint_handles_ c = [mkJointHandle "shoulder"] ∧
       joint_state_handles_ c = [] ∧
       controller_manager parse dynamics robot_without_elbow valid [sensed]
       = Some (false, []).
Proof.
  assert (Forall (λ name, is_Some (getDof arm name)) ["shoulder"; "elbow"]) as Hres
    by computed.
  assert (Exists (λ name, effort_joint_interface robot_without_elbow !! name = None)
            ["shoulder"; "elbow"]) as Hex.
  { apply Exists_cons_tl, Exists_cons_hd. vm_compute. reflexivity. }
  split_and!; [vm_compute; reflexivity..|exact Hres|exact Hex|].
  destruct (init_fails_on_missing_command_handle parse dynamics robot_without_elbow valid
              "<robot name='arm'/>" arm ["shoulder"; "elbow"] [sensed]
              eq_refl eq_refl eq_refl Hres Hex)
    as (pre & bad & post & d & handles & m & _ & _ & _ & _ & _ & _ & Hcm).
  exists (mkController (Some arm) (Some [0; 1])
            (<["shoulder" := 0]> (<["elbow" := 1]> ∅)) [mkJointHandle "shoulder"] []).
  split_and!; [vm_compute; reflexivity|reflexivity..|exact Hcm].
Defined.

(** Hardware without a state handle for the wrist: [init] succeeds with no
    state handle, and over two ticks the wrist reaches the solve at rest. *)
Lemma init_tolerates_missing_state_handle_witness :
  getParam_string valid (robot_description_parameter valid) = Some "<robot name='arm'/>" ∧
  parse "<robot name='arm'/>" = Some arm ∧
  getParam_strings valid "joints" = Some ["shoulder"; "elbow"] ∧
  Forall (λ name, is_Some (getDof arm name)) ["shoulder"; "elbow"] ∧
  Forall (λ name, is_Some (effort_joint_interface robot_without_state !! name))
         ["shoulder"; "elbow"] ∧
  arm !! 2 = Some (resting "wrist") ∧
  (getName (resting "wrist") ∉ ["shoulder"; "elbow"]) ∧
  joint_state_interface robot_without_state !! getName (resting "wrist") = None ∧
  Forall (λ hw, Forall (λ name, is_Some (effort_joint_interface hw !! name))
                       ["shoulder"; "elbow"]) [sensed; sensed] ∧
  ∃ c sks,
    init parse robot_without_state valid GravityCompensationController_new = Some (true, c) ∧
    joint_state_handles_ c = [] ∧
    solve_inputs dynamics c [sensed; sensed] = Some sks ∧ length sks = 2 ∧
    Forall (λ sk1, ∃ d1, sk1 !! 2 = Some d1 ∧ getName d1 = "wrist" ∧
                         kinematic_state d1 = (0, 0, 0)%float) sks.
Proof.
  assert (Forall (λ name, is_Some (getDof arm name)) ["shoulder"; "elbow"]) as Hres
    by computed.
  assert (Forall (λ name, is_Some (effort_joint_interface robot_without_state !! name))
            ["shoulder"; "elbow"]) as Heff by computed.
  assert (getName (resting "wrist") ∉ ["shoulder"; "elbow"]) as Hnc.
  { simpl. intros H.
    repeat (apply elem_of_cons in H as [H|H]; [discriminate|]).
    by apply elem_of_nil in H. }
  assert (Forall (λ hw, Forall (λ name, is_Some (effort_joint_interface hw !! name))
                          ["shoulder"; "elbow"]) [sensed; sensed]) as Hhws
    by computed.
  split_and!; [vm_compute; reflexivity..|exact Hres|exact Heff|reflexivity|exact Hnc
              |vm_compute; reflexivity|exact Hhws|].
  destruct (init_tolerates_missing_state_handle parse dynamics robot_without_state valid
              "<robot name='arm'/>" arm ["shoulder"; "elbow"] 2 (resting "wrist")
              [sensed; sensed] eq_refl eq_refl eq_refl Hres Heff eq_refl Hnc eq_refl Hhws)
    as (c & sks & Hinit & Hjsh & _ & Hsks & Hlen & Hall).
  exists c, sks. split_and!; [exact Hinit| |exact Hsks|exact Hlen|exact Hall].
  rewrite Hjsh. vm_compute. reflexivity.
Defined.

(** With no description on the parameter server, [init] fails under the
    default key; with the option set, the description is read from the
    key it names. *)
Lemma init_description_lookup_witness :
  robot_description_parameter no_description = "/robot_description" ∧
  init parse robot no_description GravityCompensationController_new
  = Some (false, GravityCompensationController_new) ∧
  controller_manager parse dynamics robot no_description [sensed] = Some (false, []) ∧
  robot_description_parameter own_key = "/arm/urdf" ∧
  ∃ ok c', init parse robot own_key GravityCompensationController_new = Some (ok, c') ∧
           skeleton_ c' = Some arm.
Proof.
  destruct (init_description_lookup parse dynamics robot no_description
              GravityCompensationController_new [sensed])
    as (Hdefault & _ & Hfail & _).
  destruct (init_description_lookup parse dynamics robot own_key
              GravityCompensationController_new [sensed])
    as (_ & Hkey & _ & Hfound).
  destruct (Hfail eq_refl) as [Hinit Hcm].
  split_and!; [exact (Hdefault eq_refl)|exact Hinit|exact Hcm|exact (Hkey _ eq_refl)|].
  exact (Hfound "<robot name='arm'/>" eq_refl).
Defined.

(** Over two ticks the wrist, which has a state handle, reaches the solve
    at rest all the same. *)
Lemma state_handles_never_read_witness :
  init parse robot valid GravityCompensationController_new = Some (true, ready) ∧
  Forall (λ hw, handles_registered hw (controlled_joint_handles_ ready)) [sensed; sensed] ∧
  (mkJointStateHandle "wrist" ∈ joint_state_handles_ ready) ∧
  ∃ sks, solve_inputs dynamics ready [sensed; sensed] = Some sks ∧ length sks = 2 ∧
         Forall (λ sk1, ∃ d1, sk1 !! 2 = Some d1 ∧ getName d1 = "wrist" ∧
                              kinematic_state d1 = (0, 0, 0)%float) sks.
Proof.
  assert (Forall (λ hw, handles_registered hw (controlled_joint_handles_ ready))
            [sensed; sensed]) as Hhws by computed.
  split_and!; [exact init_valid|exact Hhws|by apply list_elem_of_singleton|].
  destruct (state_handles_never_read parse dynamics robot valid ready [sensed; sensed]
              init_valid Hhws)
    as (doc & sk & grp & sks & _ & Hsk & Hgrp & Hsks & Hlen & _ & Hframe).
  injection Hsk as <-. injection Hgrp as <-.
  exists sks. split_and!; [exact Hsks|exact Hlen|].
  apply (Hframe 2 (resting "wrist") eq_refl).
  intros H. repeat (apply elem_of_cons in H as [H|H]; [discriminate|]).
  by apply elem_of_nil in H.
Defined.

(** ** More scenarios *)

Lemma ready_validated : validated ready.
Proof. exact (proj1 (init_validated parse robot valid ready init_valid)). Qed.

Lemma ready_registered : handles_registered sensed (controlled_joint_handles_ ready).
Proof. computed. Qed.

(** A description the parser rejects: [init] fails and drops the model
    the controller held. *)
Lemma init_fails_on_unparsable_description_witness :
  getParam_string unparsable (robot_description_parameter unparsable) = Some "<robot" ∧
  parse "<robot" = None ∧
  init parse robot unparsable ready = Some (false, set_skeleton None ready) ∧
  controller_manager parse dynamics robot unparsable [sensed] = Some (false, []).
Proof.
  split_and!; [vm_compute; reflexivity..| |];
    apply (init_fails_on_unparsable_description parse dynamics robot unparsable ready
             "<robot" [sensed] eq_refl eq_refl).
Defined.

(** A joint list with an entry that is not a string: [init] fails with
    the model loaded. *)
Lemma init_fails_without_joint_list_witness :
  getParam_string ill_typed_joints (robot_description_parameter ill_typed_joints)
  = Some "<robot name='arm'/>" ∧
  parse "<robot name='arm'/>" = Some arm ∧
  getParam_strings ill_typed_joints "joints" = None ∧
  init parse robot ill_typed_joints GravityCompensationController_new
  = Some (false, set_skeleton (Some arm) GravityCompensationController_new) ∧
  controller_manager parse dynamics robot ill_typed_joints [sensed] = Some (false, []).
Proof.
  split_and!; [vm_compute; reflexivity..| |];
    apply (init_fails_without_joint_list parse dynamics robot ill_typed_joints
             GravityCompensationController_new "<robot name='arm'/>" arm [sensed]
             eq_refl eq_refl eq_refl).
Defined.

(** The joint list [shoulder; elbow; shoulder] yields the group of the
    shoulder and the elbow, and the map keeps the shoulder at 0. *)
Lemma init_shoulder_again :
  init parse robot shoulder_again GravityCompensationController_new
  = Some (true, mkController (Some arm) (Some [0; 1])
                  (<["shoulder" := 0]> (<["elbow" := 1]> ∅))
                  [mkJointHandle "shoulder"; mkJointHandle "elbow"]
                  [mkJointStateHandle "wrist"]).
Proof. vm_compute. reflexivity. Qed.

Lemma init_map_agrees_with_group_witness :
  init parse robot shoulder_again GravityCompensationController_new = Some (true, ready) ∧
  getParam_strings shoulder_again "joints" = Some ["shoulder"; "elbow"; "shoulder"] ∧
  NoDup [0; 1] ∧
  ready.(controlled_joint_map_) !! "shoulder" = Some 0 ∧
  (∀ i, ready.(controlled_joint_map_) !! "shoulder" = Some i
        ↔ ∃ p, [0; 1] !! i = Some p ∧ dof_index arm "shoulder" = Some p).
Proof.
  assert (getParam_strings shoulder_again "joints" = Some ["shoulder"; "elbow"; "shoulder"])
    as Hnames by (vm_compute; reflexivity).
  destruct (init_map_agrees_with_group parse robot shoulder_again ready
              ["shoulder"; "elbow"; "shoulder"] init_shoulder_again Hnames)
    as (sk & grp & Hsk & Hgrp & Hnd & _ & _ & Hmap).
  injection Hsk as <-. injection Hgrp as <-.
  split_and!; [exact init_shoulder_again|exact Hnames|exact Hnd|vm_compute; reflexivity|].
  intros i. apply Hmap.
Defined.

(** At the sensed state a tick leaves the readings of the shoulder and the
    state interface as they were. *)
Lemma update_writes_commands_only_witness :
  consistent ready sensed ∧
  ∃ c' hw' log,
    update dynamics ready sensed = Some (c', hw', log) ∧
    joint_state_interface hw' = joint_state_interface sensed ∧
    jd_sensed <$> effort_joint_interface hw' !! "shoulder"
    = Some (0.25, 0.125, 0)%float.
Proof.
  split; [exact ready_consistent|].
  destruct (update_writes_commands_only dynamics ready sensed ready_consistent)
    as (c' & hw' & log & Hup & Hstate & Hsensed & _).
  exists c', hw', log. split_and!; [done|done|].
  rewrite Hsensed. vm_compute. reflexivity.
Defined.

(** At the sensed state a tick leaves 2 in the command slot of the
    shoulder and -4 in that of the elbow. *)
Lemma update_command_slots_witness :
  validated ready ∧ handles_registered sensed (controlled_joint_handles_ ready) ∧
  controlled_skeleton_ ready = Some [0; 1] ∧
  ∃ c' hw' log,
    update dynamics ready sensed = Some (c', hw', log) ∧
    jd_command <$> effort_joint_interface hw' !! "shoulder" = Some 2%float ∧
    jd_command <$> effort_joint_interface hw' !! "elbow" = Some (-4)%float.
Proof.
  split_and!; [exact ready_validated|exact ready_registered|reflexivity|].
  destruct (update_command_slots dynamics ready sensed [0; 1]
              ready_validated ready_registered eq_refl)
    as (sk1 & c' & hw' & log & H1 & Hup & Hslots).
  exists c', hw', log. split; [done|].
  vm_compute in H1. injection H1 as <-.
  split.
  - pose proof (Hslots 0 0 (mkJointHandle "shoulder") eq_refl eq_refl) as H.
    cbn [jh_name] in H. rewrite H. vm_compute. reflexivity.
  - pose proof (Hslots 1 1 (mkJointHandle "elbow") eq_refl eq_refl) as H.
    cbn [jh_name] in H. rewrite H. vm_compute. reflexivity.
Defined.

(** Initialising the ready controller again leaves four command handles
    and two state handles. *)
Lemma init_accumulates_witness :
  getParam_string valid (robot_description_parameter valid) = Some "<robot name='arm'/>" ∧
  parse "<robot name='arm'/>" = Some arm ∧
  getParam_strings valid "joints" = Some ["shoulder"; "elbow"] ∧
  Forall (λ name, is_Some (getDof arm name)) ["shoulder"; "elbow"] ∧
  Forall (λ name, is_Some (effort_joint_interface robot !! name)) ["shoulder"; "elbow"] ∧
  ∃ c', init parse robot valid ready = Some (true, c') ∧
        controlled_skeleton_ c' = Some [0; 1] ∧
        controlled_joint_handles_ c'
        = [mkJointHandle "shoulder"; mkJointHandle "elbow";
           mkJointHandle "shoulder"; mkJointHandle "elbow"] ∧
        joint_state_handles_ c' = [mkJointStateHandle "wrist"; mkJointStateHandle "wrist"].
Proof.
  assert (Forall (λ name, is_Some (getDof arm name)) ["shoulder"; "elbow"]) as Hres
    by computed.
  assert (Forall (λ name, is_Some (effort_joint_interface robot !! name))
            ["shoulder"; "elbow"]) as Heff by computed.
  split_and!; [vm_compute; reflexivity..|exact Hres|exact Heff|].
  destruct (init_accumulates parse robot valid ready "<robot name='arm'/>" arm
              ["shoulder"; "elbow"] eq_refl eq_refl eq_refl Hres Heff)
    as (c0 & c' & Hinit0 & Hinit & _ & Hgrp & Hh & Hs & _).
  rewrite init_valid in Hinit0. injection Hinit0 as <-.
  exists c'. split_and!; [exact Hinit|exact Hgrp|exact Hh|exact Hs].
Defined.

(** The valid configuration runs three ticks, each commanding the shoulder
    and then the elbow. *)
Lemma controller_manager_runs_witness :
  getParam_string valid (robot_description_parameter valid) = Some "<robot name='arm'/>" ∧
  parse "<robot name='arm'/>" = Some arm ∧
  getParam_strings valid "joints" = Some ["shoulder"; "elbow"] ∧
  Forall (λ name, is_Some (getDof arm name)) ["shoulder"; "elbow"] ∧
  Forall (λ name, is_Some (effort_joint_interface robot !! name)) ["shoulder"; "elbow"] ∧
  Forall (λ hw, Forall (λ name, is_Some (effort_joint_interface hw !! name))
                       ["shoulder"; "elbow"]) [sensed; robot; sensed] ∧
  ∃ logs,
    controller_manager parse dynamics robot valid [sensed; robot; sensed]
    = Some (true, logs) ∧
    length logs = 3 ∧
    Forall (λ log, log.*1 = [mkJointHandle "shoulder"; mkJointHandle "elbow"]) logs.
Proof.
  assert (Forall (λ name, is_Some (getDof arm name)) ["shoulder"; "elbow"]) as Hres
    by computed.
  assert (Forall (λ name, is_Some (effort_joint_interface robot !! name))
            ["shoulder"; "elbow"]) as Heff by computed.
  assert (Forall (λ hw, Forall (λ name, is_Some (effort_joint_interface hw !! name))
                          ["shoulder"; "elbow"]) [sensed; robot; sensed]) as Hhws
    by computed.
  split_and!; [vm_compute; reflexivity..|exact Hres|exact Heff|exact Hhws|].
  destruct (controller_manager_runs parse dynamics robot valid "<robot name='arm'/>" arm
              ["shoulder"; "elbow"] [sensed; robot; sensed]
              eq_refl eq_refl eq_refl Hres Heff Hhws)
    as (c & logs & Hinit & Hcm & Hlen & Hlogs).
  rewrite init_valid in Hinit. injection Hinit as <-.
  exists logs. split_and!; [exact Hcm|exact Hlen|exact Hlogs].
Defined.

(** After two ticks both handles of the ready controller still resolve. *)
Lemma lookup_never_fails_after_init_witness :
  init parse robot valid GravityCompensationController_new = Some (true, ready) ∧
  Forall (λ hw, handles_registered hw (controlled_joint_handles_ ready)) [sensed; sensed] ∧
  ∃ sk' logs,
    run_ticks dynamics ready [sensed; sensed] = Some (set_skeleton (Some sk') ready, logs) ∧
    getName <$> sk' = ["shoulder"; "elbow"; "wrist"] ∧
    resolving_handles sk' (controlled_joint_handles_ ready)
    = [mkJointHandle "shoulder"; mkJointHandle "elbow"].
Proof.
  assert (Forall (λ hw, handles_registered hw (controlled_joint_handles_ ready))
            [sensed; sensed]) as Hhws by computed.
  split_and!; [exact init_valid|exact Hhws|].
  destruct (lookup_never_fails_after_init parse dynamics robot valid ready [sensed; sensed]
              init_valid Hhws)
    as (sk & sk' & logs & Hsk & Hrun & Hnames & Hres).
  injection Hsk as <-.
  exists sk', logs. split_and!; [exact Hrun|exact Hnames|exact Hres].
Defined.

(** After a tick at rest, the next tick hands the elbow to the solve as
    sensed: -0.5 rad, 2 rad/s, zero acceleration. *)
Lemma controlled_dofs_synchronised_every_tick_witness :
  init parse robot valid GravityCompensationController_new = Some (true, ready) ∧
  Forall (λ hw, handles_registered hw (controlled_joint_handles_ ready)) [robot] ∧
  handles_registered sensed (controlled_joint_handles_ ready) ∧
  ∃ c' logs sk1 d,
    run_ticks dynamics ready [robot] = Some (c', logs) ∧
    model_before_solve c' sensed = Some sk1 ∧
    sk1 !! 1 = Some d ∧ getName d = "elbow" ∧
    dof_position d = (-0.5)%float ∧ dof_velocity d = 2%float ∧
    dof_acceleration d = 0%float.
Proof.
  assert (Forall (λ hw, handles_registered hw (controlled_joint_handles_ ready)) [robot])
    as Hhws by computed.
  split_and!; [exact init_valid|exact Hhws|exact ready_registered|].
  destruct (controlled_dofs_synchronised_every_tick parse dynamics robot valid ready
              [robot] sensed init_valid Hhws ready_registered)
    as (grp & c' & logs & sk1 & Hgrp & Hrun & H1 & Hall).
  injection Hgrp as <-.
  destruct (Hall 1 1 (mkJointHandle "elbow") eq_refl eq_refl)
    as (d & Hd & Hn & Hq & Hdq & Ha).
  exists c', logs, sk1, d. vm_compute in Hq, Hdq.
  injection Hq as Hq. injection Hdq as Hdq. by split_and!.
Defined.

(** The sensed memory and a copy of it with other efforts and stale
    commands lead to the same commands. *)
Lemma update_reads_position_and_velocity_only_witness :
  let sensed' :=
    mkRobotHW (<["shoulder" := mkJointData 0.25%float 0.125%float 7%float 3%float]>
                 (<["elbow" := mkJointData (-0.5)%float 2%float 1%float 9%float]>
                    (<["wrist" := at_rest]> ∅)))
              ∅ in
  consistent ready sensed ∧ consistent ready sensed' ∧
  Forall (λ h, getPosition sensed h = getPosition sensed' h ∧
               getVelocity sensed h = getVelocity sensed' h)
         (controlled_joint_handles_ ready) ∧
  ∃ c' hw1' hw2' log,
    update dynamics ready sensed = Some (c', hw1', log) ∧
    update dynamics ready sensed' = Some (c', hw2', log).
Proof.
  intros sensed'.
  assert (consistent ready sensed') as Hc2 by (exists arm, [0; 1]; computed).
  assert (Forall (λ h, getPosition sensed h = getPosition sensed' h ∧
                       getVelocity sensed h = getVelocity sensed' h)
            (controlled_joint_handles_ ready)) as Hagree by computed.
  split_and!; [exact ready_consistent|exact Hc2|exact Hagree|].
  destruct (update_reads_position_and_velocity_only dynamics ready sensed sensed'
              ready_consistent Hc2 Hagree)
    as (sk1 & c' & hw1' & hw2' & log & _ & _ & Hup1 & Hup2).
  exists c', hw1', hw2', log. by split.
Defined.
